(** * PDM microphone capture applet: gateware and host consumer

    A shallow embedding of [software/glasgow/applet/audio/pdm_mic/__init__.py]:

    - [FIFOStreamer]: the strobe-to-FIFO hand-off state machine;
    - [PDMCaptureSubtarget]: the sampling state machine and its wiring to
      the streamer;
    - [AudioPDMApplet.interact]: the host loop that drains the transport
      into a file.

    Amaranth signals are modelled as [Z] values truncated to their width,
    a synchronous design as a step function from the registers and the
    inputs of one clock cycle to the registers of the next cycle and the
    combinational outputs of this one. *)

From Stdlib Require Import ZArith List Bool Lia.
From Stdlib Require Import Strings.String Strings.Byte.
Import ListNotations.

Local Open Scope Z_scope.

(* ------------------------------------------------------------------ *)
(** ** Signals *)

Module Signal.

(** The value held by a [width]-bit unsigned signal that is assigned [v]:
    the low [width] bits of [v]. *)
Definition trunc (width v : Z) : Z := Z.land v (Z.ones width).

(** [sig[k]] as a one-bit value. *)
Definition bit (v k : Z) : Z := Z.b2z (Z.testbit v k).

(** [Cat(b0, b1, ...)]: the first operand is the least significant. *)
Fixpoint Cat (bits : list Z) : Z :=
  match bits with
  | [] => 0
  | b :: rest => Z.lor b (Z.shiftl (Cat rest) 1)
  end.

(** [sig[lo:lo+len].eq(v)]: replace [len] bits of [old] from bit [lo] on
    by the low [len] bits of [v]. *)
Definition set_slice (old lo len v : Z) : Z :=
  Z.lor (Z.land old (Z.lnot (Z.shiftl (Z.ones len) lo)))
        (Z.shiftl (trunc len v) lo).

End Signal.

(* ------------------------------------------------------------------ *)
(** ** FIFOStreamer *)

Module FIFOStreamer.

Inductive state := IDLE | REPORT_OVERRUN | WAIT.

(** The signals the streamer reads in one cycle: its own [strobe] and
    [data], and the queue's [fifo.w_rdy]. *)
Record inputs := { strobe : bool; data : Z; w_rdy : bool }.

(** The combinational signals it drives; both are 0 when no branch
    assigns them. *)
Record fifo_port := { w_data : Z; w_en : bool }.

Definition no_write : fifo_port := {| w_data := 0; w_en := false |}.

(** [__init__]: [assert width > 0 and width <= 7]. *)
Definition init (width : Z) : option Z :=
  if (0 <? width) && (width <=? 7) then Some width else None.

(** The FSM of [elaborate]; [fifo.w_data] is one byte wide and
    [self.data] is [Signal(width)]. *)
Definition step (width : Z) (st : state) (i : inputs) : state * fifo_port :=
  match st with
  | IDLE =>
      if strobe i then
        if w_rdy i then
          (WAIT, {| w_data := Signal.trunc 8 (Signal.trunc width (data i));
                    w_en := true |})
        else (REPORT_OVERRUN, no_write)
      else (IDLE, no_write)
  | REPORT_OVERRUN =>
      if w_rdy i then (IDLE, {| w_data := Signal.trunc 8 255; w_en := true |})
      else (REPORT_OVERRUN, no_write)
  | WAIT => (IDLE, no_write)
  end.

(** The port values of every cycle of a run. *)
Fixpoint run (width : Z) (st : state) (ins : list inputs) : list fifo_port :=
  match ins with
  | [] => []
  | i :: rest =>
      let '(st', o) := step width st i in o :: run width st' rest
  end.

(** The state reached after a run. *)
Fixpoint final (width : Z) (st : state) (ins : list inputs) : state :=
  match ins with
  | [] => st
  | i :: rest => final width (fst (step width st i)) rest
  end.

(** The bytes that enter the queue: [w_data] of the cycles with [w_en]. *)
Fixpoint writes (outs : list fifo_port) : list Z :=
  match outs with
  | [] => []
  | o :: rest => if w_en o then w_data o :: writes rest else writes rest
  end.

Definition sentinel : Z := 255.

End FIFOStreamer.

(* ------------------------------------------------------------------ *)
(** ** PDMCaptureSubtarget *)

Module PDMCaptureSubtarget.

(** *** Elaboration

    [elaborate] is Python code that runs once and builds the circuit; it
    can fail with the assertion of [FIFOStreamer.__init__] or with the
    [IndexError] Amaranth raises for [sig[k]] when [k] is outside
    [range(-len(sig), len(sig))]. *)

Inductive elab_error :=
| AssertionError
| IndexError (index width : Z).

Definition elab (A : Type) : Type := (elab_error + A)%type.

Definition ret {A} (a : A) : elab A := inr a.

Definition bind {A B} (m : elab A) (k : A -> elab B) : elab B :=
  match m with
  | inl e => inl e
  | inr a => k a
  end.

Notation "x <- m ;; k" := (bind m (fun x => k))
  (at level 61, m at next level, right associativity).

(** [sig[k]] for a signal of [width] bits: the position of the bit read. *)
Definition getitem (width k : Z) : elab Z :=
  if (- width <=? k) && (k <? width)
  then ret (if k <? 0 then k + width else k)
  else inl (IndexError k width).

Fixpoint getitems (width : Z) (ks : list Z) : elab (list Z) :=
  match ks with
  | [] => ret []
  | k :: rest =>
      p <- getitem width k ;;
      ps <- getitems width rest ;;
      ret (p :: ps)
  end.

(** The operands of the [Cat] of state [REPORT], in the order Python
    evaluates them. *)
Definition report_indices : list Z := [0; 3; 1; 4; 2; 5].

(** What the elaborated circuit depends on: the channel count [n], the
    width the streamer was built with, and the bits of [pins_current]
    that [REPORT] concatenates into [channels]. *)
Record design := {
  n : Z;
  streamer_width : Z;
  report_bits : list Z
}.

(** [elaborate], for [n = len(self.ports.i)]: the signals of lines 69-73
    have [2 * n] bits, line 75 builds the streamer, line 85 indexes
    [pins_current]. *)
Definition elaborate (n : Z) : elab design :=
  let pins_current_width := n * 2 in
  w <- match FIFOStreamer.init (n * 2) with
       | Some w => ret w
       | None => inl AssertionError
       end ;;
  bits <- getitems pins_current_width report_indices ;;
  ret {| n := n; streamer_width := w; report_bits := bits |}.

(** *** The circuit *)

Inductive fsm_state := REPORT | WAIT_RISING_EDGE | WAIT_FALLING_EDGE.

(** The registers driven from the [sync] domain. *)
Record regs := {
  fsm : fsm_state;
  pins_current : Z;
  channels : Z;
  counter : Z;
  counter_prev : Z
}.

(** The signals the subtarget reads in one cycle: the strobes of the
    clock generator, the output [pins_i] of the input synchronizer, and
    [in_fifo.w_rdy]. *)
Record inputs := { stb_r : bool; stb_f : bool; pins_i : Z; w_rdy : bool }.

Definition sampler_step (d : design) (r : regs) (i : inputs) : regs :=
  match fsm r with
  | REPORT =>
      {| fsm := WAIT_RISING_EDGE;
         pins_current := pins_current r;
         channels := Signal.trunc (n d * 2)
                       (Signal.Cat (map (Signal.bit (pins_current r))
                                        (report_bits d)));
         counter := counter r;
         counter_prev := counter r |}
  | WAIT_RISING_EDGE =>
      if stb_r i then
        {| fsm := WAIT_FALLING_EDGE;
           pins_current := Signal.set_slice (pins_current r) 0 (n d) (pins_i i);
           channels := channels r;
           counter := counter r;
           counter_prev := counter_prev r |}
      else r
  | WAIT_FALLING_EDGE =>
      if stb_f i then
        {| fsm := REPORT;
           pins_current :=
             Signal.set_slice (pins_current r) (n d) (n d) (pins_i i);
           channels := channels r;
           counter := Signal.trunc (n d * 2) (counter r + 1);
           counter_prev := counter_prev r |}
      else r
  end.

Record state := { sampler : regs; streamer : FIFOStreamer.state }.

(** All registers reset to 0; an FSM starts in its first state. *)
Definition reset : state :=
  {| sampler := {| fsm := REPORT; pins_current := 0; channels := 0;
                   counter := 0; counter_prev := 0 |};
     streamer := FIFOStreamer.IDLE |}.

(** The combinational wiring of lines 77-80. *)
Definition streamer_inputs (s : state) (i : inputs) : FIFOStreamer.inputs :=
  {| FIFOStreamer.strobe := stb_f i;
     FIFOStreamer.data := channels (sampler s);
     FIFOStreamer.w_rdy := w_rdy i |}.

(** One clock cycle of the whole subtarget. *)
Definition step (d : design) (s : state) (i : inputs)
  : state * FIFOStreamer.fifo_port :=
  let '(st', port) :=
    FIFOStreamer.step (streamer_width d) (streamer s) (streamer_inputs s i) in
  ({| sampler := sampler_step d (sampler s) i; streamer := st' |}, port).

Fixpoint run (d : design) (s : state) (ins : list inputs)
  : list FIFOStreamer.fifo_port :=
  match ins with
  | [] => []
  | i :: rest => let '(s', o) := step d s i in o :: run d s' rest
  end.

Fixpoint final (d : design) (s : state) (ins : list inputs) : state :=
  match ins with
  | [] => s
  | i :: rest => final d (fst (step d s i)) rest
  end.

(** The sampling registers after a run; the streamer has no part in
    them. *)
Fixpoint sampler_final (d : design) (r : regs) (ins : list inputs) : regs :=
  match ins with
  | [] => r
  | i :: rest => sampler_final d (sampler_step d r i) rest
  end.

(** The byte stream that enters the output queue. *)
Definition queue_bytes (d : design) (ins : list inputs) : list Z :=
  FIFOStreamer.writes (run d reset ins).

End PDMCaptureSubtarget.

(** The same subtarget with the register [counter_prev] and the
    assignment [counter_prev.eq(counter)] of state [REPORT] taken out. *)
Module WithoutCounterPrev.

Import PDMCaptureSubtarget.

Record regs := {
  fsm : fsm_state;
  pins_current : Z;
  channels : Z;
  counter : Z
}.

Definition sampler_step (d : design) (r : regs) (i : inputs) : regs :=
  match fsm r with
  | REPORT =>
      {| fsm := WAIT_RISING_EDGE;
         pins_current := pins_current r;
         channels := Signal.trunc (n d * 2)
                       (Signal.Cat (map (Signal.bit (pins_current r))
                                        (report_bits d)));
         counter := counter r |}
  | WAIT_RISING_EDGE =>
      if stb_r i then
        {| fsm := WAIT_FALLING_EDGE;
           pins_current := Signal.set_slice (pins_current r) 0 (n d) (pins_i i);
           channels := channels r;
           counter := counter r |}
      else r
  | WAIT_FALLING_EDGE =>
      if stb_f i then
        {| fsm := REPORT;
           pins_current :=
             Signal.set_slice (pins_current r) (n d) (n d) (pins_i i);
           channels := channels r;
           counter := Signal.trunc (n d * 2) (counter r + 1) |}
      else r
  end.

Record state := { sampler : regs; streamer : FIFOStreamer.state }.

Definition reset : state :=
  {| sampler := {| fsm := REPORT; pins_current := 0; channels := 0;
                   counter := 0 |};
     streamer := FIFOStreamer.IDLE |}.

Definition streamer_inputs (s : state) (i : inputs) : FIFOStreamer.inputs :=
  {| FIFOStreamer.strobe := stb_f i;
     FIFOStreamer.data := channels (sampler s);
     FIFOStreamer.w_rdy := w_rdy i |}.

Definition step (d : design) (s : state) (i : inputs)
  : state * FIFOStreamer.fifo_port :=
  let '(st', port) :=
    FIFOStreamer.step (streamer_width d) (streamer s) (streamer_inputs s i) in
  ({| sampler := sampler_step d (sampler s) i; streamer := st' |}, port).

Fixpoint run (d : design) (s : state) (ins : list inputs)
  : list FIFOStreamer.fifo_port :=
  match ins with
  | [] => []
  | i :: rest => let '(s', o) := step d s i in o :: run d s' rest
  end.

Definition queue_bytes (d : design) (ins : list inputs) : list Z :=
  FIFOStreamer.writes (run d reset ins).

End WithoutCounterPrev.

(* ------------------------------------------------------------------ *)
(** ** AudioPDMApplet *)

Module AudioPDMApplet.

(** *** Build *)

(** [add_build_arguments]: [add_pin_set_argument(parser, "i", width=3)]. *)
Definition pin_set_i_width : Z := 3.

(** [build]: the subtarget is elaborated with the pin set [i] as its
    input ports, so [n = len(self.ports.i)] is the width of that set. *)
Definition build : PDMCaptureSubtarget.elab PDMCaptureSubtarget.design :=
  PDMCaptureSubtarget.elaborate pin_set_i_width.

(** *** Interact *)

(** A raised exception: whether it is an instance of [Exception] (what
    [except Exception] catches; [asyncio.CancelledError] and
    [KeyboardInterrupt] are not), and its text. *)
Record exn := { is_Exception : bool; message : string }.

(** What one [await iface.read()] yields. *)
Inductive read_event :=
| Chunk (data : list byte)
| ReadRaises (e : exn).

(** What one [f.write(buffer)] does: the file object takes all of the
    buffer, to the file or to its own buffer, or an [OSError] is raised
    after it took [partial] bytes of it. *)
Inductive write_result :=
| WriteOk
| WriteFails (partial : nat) (msg : string).

(** What [f.close()] does. It flushes what the file object still holds in
    its own buffer and closes the handle. When the flush fails (a full
    disk shows up here for a write that was small enough to be buffered),
    the last [lost] bytes that [write] took never reach the file, the
    handle is closed all the same, and the [OSError] is raised. *)
Inductive close_result :=
| CloseOk
| CloseFails (lost : nat) (msg : string).

(** The storage behind the file: the result of each [write] call, by the
    number of calls made before it, and the result of [close]. *)
Record disk := {
  on_write :> nat -> write_result;
  on_close : close_result
}.

Definition OSError (msg : string) : exn :=
  {| is_Exception := true; message := msg |}.

(** The file object [f]: the bytes it has taken, in order, which are the
    bytes of the file once it is closed; and how often [write] and [close]
    were called. *)
Record file := {
  contents : list byte;
  write_calls : nat;
  close_calls : nat
}.

(** [open(args.file.name, "wb")]: created or truncated. This is a handle
    of its own; the one [argparse] opened as [args.file] is only asked for
    its name and is not touched by [interact]. *)
Definition open : file :=
  {| contents := []; write_calls := 0; close_calls := 0 |}.

Definition file_write (d : disk) (f : file) (b : list byte)
  : file * option exn :=
  match d (write_calls f) with
  | WriteOk =>
      ({| contents := contents f ++ b;
          write_calls := S (write_calls f);
          close_calls := close_calls f |}, None)
  | WriteFails partial msg =>
      ({| contents := contents f ++ firstn partial b;
          write_calls := S (write_calls f);
          close_calls := close_calls f |}, Some (OSError msg))
  end.

Definition file_close (d : disk) (f : file) : file * option exn :=
  match on_close d with
  | CloseOk =>
      ({| contents := contents f;
          write_calls := write_calls f;
          close_calls := S (close_calls f) |}, None)
  | CloseFails lost msg =>
      ({| contents := firstn (List.length (contents f) - lost) (contents f);
          write_calls := write_calls f;
          close_calls := S (close_calls f) |}, Some (OSError msg))
  end.

Inductive level := INFO | ERROR.

(** The local variables of [interact], with the log as part of the
    state. *)
Record locals := {
  f : file;
  log : list (level * string);
  total_read : Z;
  overrun : bool;
  buffer : list byte
}.

Definition set_f (st : locals) (f' : file) : locals :=
  {| f := f'; log := log st; total_read := total_read st;
     overrun := overrun st; buffer := buffer st |}.

Definition set_buffer (st : locals) (b : list byte) : locals :=
  {| f := f st; log := log st; total_read := total_read st;
     overrun := overrun st; buffer := b |}.

Definition set_total_read (st : locals) (t : Z) : locals :=
  {| f := f st; log := log st; total_read := t;
     overrun := overrun st; buffer := buffer st |}.

Definition set_overrun (st : locals) (o : bool) : locals :=
  {| f := f st; log := log st; total_read := total_read st;
     overrun := o; buffer := buffer st |}.

Definition add_log (st : locals) (l : level) (msg : string) : locals :=
  {| f := f st; log := log st ++ [(l, msg)]; total_read := total_read st;
     overrun := overrun st; buffer := buffer st |}.

Definition len (b : list byte) : Z := Z.of_nat (List.length b).

(** [0xff in data]. *)
Definition contains_0xff (data : list byte) : bool :=
  existsb (Byte.eqb xff) data.

(** How the [while] statement is left. *)
Inductive loop_exit :=
| LoopEnd               (* the condition is false, or [break] *)
| LoopRaise (e : exn)   (* an exception leaves the loop *)
| LoopAwait.            (* suspended in [await iface.read()] *)

(** Lines 150-167, over the events the transport delivers; [threshold]
    is the constant [1024 * 1024] of line 165. *)
Fixpoint loop (d : disk) (threshold : Z) (transport : list read_event)
    (st : locals) : loop_exit * locals :=
  if overrun st then (LoopEnd, st) else
  match transport with
  | [] => (LoopAwait, st)
  | ReadRaises e :: _ => (LoopRaise e, st)
  | Chunk data :: rest =>
      if len data =? 0 then loop d threshold rest st
      else
        let st := set_total_read st (total_read st + len data) in
        if contains_0xff data then
          (LoopEnd,
           set_overrun (add_log st ERROR "FIFO overrun, shutting down"%string) true)
        else
          let st := set_buffer st (buffer st ++ data) in
          if threshold <? len (buffer st) then
            match file_write d (f st) (buffer st) with
            | (f', None) => loop d threshold rest (set_buffer (set_f st f') [])
            | (f', Some e) => (LoopRaise e, set_f st f')
            end
          else loop d threshold rest st
  end.

(** Lines 169-171. *)
Definition final_flush (d : disk) (st : locals) : option exn * locals :=
  if 0 <? len (buffer st) then
    match file_write d (f st) (buffer st) with
    | (f', None) => (None, set_buffer (set_f st f') [])
    | (f', Some e) => (Some e, set_f st f')
    end
  else (None, st).

(** How a call of [interact] stands once the transport's events are
    used up. *)
Inductive outcome :=
| Returned
| Propagated (e : exn)
| Suspended.

(** The [except Exception] and [finally] clauses, for the body of the
    [try] having completed ([None]) or raised. An exception that
    [f.close()] raises in the [finally] clause is outside the [try] body:
    it is not logged and it leaves [interact], in the place of an exception
    that was on its way out. *)
Definition handlers (d : disk) (raised : option exn) (st : locals)
  : outcome * locals :=
  let '(o, st) :=
    match raised with
    | None => (Returned, st)
    | Some e =>
        if is_Exception e
        then (Returned,
              add_log st ERROR (String.append "Error writing to file: " (message e)))
        else (Propagated e, st)
    end in
  match file_close d (f st) with
  | (f', None) => (o, set_f st f')
  | (f', Some e) => (Propagated e, set_f st f')
  end.

Definition interact_with (threshold : Z) (d : disk)
    (transport : list read_event) : outcome * locals :=
  let st := {| f := open; log := [(INFO, "starting capture"%string)];
               total_read := 0; overrun := false; buffer := [] |} in
  match loop d threshold transport st with
  | (LoopAwait, st) => (Suspended, st)
  | (LoopRaise e, st) => handlers d (Some e) st
  | (LoopEnd, st) =>
      let '(raised, st) := final_flush d st in handlers d raised st
  end.

Definition flush_threshold : Z := 1024 * 1024.

Definition interact : disk -> list read_event -> outcome * locals :=
  interact_with flush_threshold.

(** *** Views of a run, for the statements below *)

(** The chunks that [buffer += data] appends: not empty and without the
    sentinel, up to the first chunk that holds it or the first failed
    read. *)
Fixpoint accepted (transport : list read_event) : list byte :=
  match transport with
  | [] => []
  | ReadRaises _ :: _ => []
  | Chunk data :: rest =>
      if contains_0xff data then [] else data ++ accepted rest
  end.

(** A disk on which every [write] and the [close] succeed. *)
Definition healthy : disk :=
  {| on_write := fun _ => WriteOk; on_close := CloseOk |}.

End AudioPDMApplet.

(** A disk is applied to the number of a [write] call. *)
Coercion AudioPDMApplet.on_write : AudioPDMApplet.disk >-> Funclass.

(* ------------------------------------------------------------------ *)
(** ** Vocabulary of the statements *)

(** The cycle in which a strobe meets a full queue. *)
Definition overrun_cycle (d : Z) : FIFOStreamer.inputs :=
  {| FIFOStreamer.strobe := true; FIFOStreamer.data := d;
     FIFOStreamer.w_rdy := false |}.

(** The queue has room in every cycle that has a strobe. *)
Definition room_at_every_strobe (ins : list FIFOStreamer.inputs) : bool :=
  forallb (fun i => implb (FIFOStreamer.strobe i) (FIFOStreamer.w_rdy i)) ins.

(** No two cycles in a row have a strobe. *)
Fixpoint strobes_apart (ins : list FIFOStreamer.inputs) : bool :=
  match ins with
  | a :: (b :: _) as rest =>
      negb (FIFOStreamer.strobe a && FIFOStreamer.strobe b)
      && strobes_apart rest
  | _ => true
  end.

Definition count_strobes (ins : list FIFOStreamer.inputs) : nat :=
  List.length (filter FIFOStreamer.strobe ins).

(** What a cycle drives when each strobe writes its own sample. *)
Definition sample_write (width : Z) (i : FIFOStreamer.inputs)
  : FIFOStreamer.fifo_port :=
  if FIFOStreamer.strobe i
  then {| FIFOStreamer.w_data := Signal.trunc width (FIFOStreamer.data i);
          FIFOStreamer.w_en := true |}
  else FIFOStreamer.no_write.

(** A sentinel owed by [REPORT_OVERRUN] is paid for by the strobe that
    found the queue full. *)
Definition owed (st : FIFOStreamer.state) : nat :=
  match st with FIFOStreamer.REPORT_OVERRUN => 1 | _ => 0 end.

(** The circuit [build] elaborates. *)
Definition design3 : PDMCaptureSubtarget.design :=
  {| PDMCaptureSubtarget.n := 3;
     PDMCaptureSubtarget.streamer_width := 6;
     PDMCaptureSubtarget.report_bits := [0; 3; 1; 4; 2; 5] |}.

(** The sample word of the data model, from the pin values [rise] and
    [fall] sampled at the two edges: bit [2 * i] is the rising-edge value
    of channel [i] and bit [2 * i + 1] its falling-edge value. *)
Definition interleave (rise fall : Z) : Z :=
  Signal.Cat [Signal.bit rise 0; Signal.bit fall 0;
              Signal.bit rise 1; Signal.bit fall 1;
              Signal.bit rise 2; Signal.bit fall 2].

(** What [REPORT] latches into [channels] from [pins_current] in the
    circuit [design3]. *)
Definition channels_of (pc : Z) : Z :=
  Signal.trunc 6
    (Signal.Cat (map (Signal.bit pc) (PDMCaptureSubtarget.report_bits design3))).

(** Drop [counter_prev] from the registers. *)
Definition erase_regs (r : PDMCaptureSubtarget.regs) : WithoutCounterPrev.regs :=
  {| WithoutCounterPrev.fsm := PDMCaptureSubtarget.fsm r;
     WithoutCounterPrev.pins_current := PDMCaptureSubtarget.pins_current r;
     WithoutCounterPrev.channels := PDMCaptureSubtarget.channels r;
     WithoutCounterPrev.counter := PDMCaptureSubtarget.counter r |}.

Definition erase (s : PDMCaptureSubtarget.state) : WithoutCounterPrev.state :=
  {| WithoutCounterPrev.sampler := erase_regs (PDMCaptureSubtarget.sampler s);
     WithoutCounterPrev.streamer := PDMCaptureSubtarget.streamer s |}.

(** *** The strobes of the clock generator

    [ClockGen] is outside this file, so its strobes are inputs of the
    subtarget. The clock is low after reset and after a falling strobe, and
    high between a rising strobe and the falling one that follows. *)
Inductive phase := AfterFall | Low | High.

(** One cycle of a clock whose strobes alternate, rising first, and never
    come together. With [gap], a rising strobe may not come in the first
    cycle after reset nor in the cycle right after a falling strobe. *)
Definition clock_step (gap : bool) (p : phase) (i : PDMCaptureSubtarget.inputs)
  : option phase :=
  match p with
  | AfterFall =>
      if PDMCaptureSubtarget.stb_f i then None
      else if PDMCaptureSubtarget.stb_r i
           then (if gap then None else Some High)
           else Some Low
  | Low =>
      if PDMCaptureSubtarget.stb_f i then None
      else if PDMCaptureSubtarget.stb_r i then Some High else Some Low
  | High =>
      if PDMCaptureSubtarget.stb_r i then None
      else if PDMCaptureSubtarget.stb_f i then Some AfterFall else Some High
  end.

Fixpoint phase_after (gap : bool) (p : phase)
    (ins : list PDMCaptureSubtarget.inputs) : option phase :=
  match ins with
  | [] => Some p
  | i :: rest =>
      match clock_step gap p i with
      | Some p' => phase_after gap p' rest
      | None => None
      end
  end.

Definition clocked (gap : bool) (ins : list PDMCaptureSubtarget.inputs) : bool :=
  match phase_after gap AfterFall ins with
  | Some _ => true
  | None => false
  end.

(** Strobes that alternate and never coincide. *)
Definition alternating := clocked false.

(** The same, and every rising strobe comes at least two cycles after
    reset or the falling strobe before it. *)
Definition well_clocked := clocked true.

(** The pin values at the rising strobes, in order, and at the falling
    strobes. *)
Definition rises (ins : list PDMCaptureSubtarget.inputs) : list Z :=
  map PDMCaptureSubtarget.pins_i (filter PDMCaptureSubtarget.stb_r ins).

Definition falls (ins : list PDMCaptureSubtarget.inputs) : list Z :=
  map PDMCaptureSubtarget.pins_i (filter PDMCaptureSubtarget.stb_f ins).

(** The word of the last bit-clock period that is complete after the
    cycles [pre]: the interleave of the samples of its two edges, and 0
    when no period is complete yet. *)
Definition previous_period_word (pre : list PDMCaptureSubtarget.inputs) : Z :=
  match List.length (falls pre) with
  | O => 0
  | S k => interleave (nth k (rises pre) 0) (nth k (falls pre) 0)
  end.

(** The channel word in front of the streamer in the cycle that follows
    the cycles [pre]. *)
Definition presented_word (pre : list PDMCaptureSubtarget.inputs) : Z :=
  PDMCaptureSubtarget.channels
    (PDMCaptureSubtarget.sampler
       (PDMCaptureSubtarget.final design3 PDMCaptureSubtarget.reset pre)).

(** What holds of the registers after the cycles [pre] of a clock with the
    gap, by the phase of the clock then. *)
Definition sampler_tracks (p : phase) (r : PDMCaptureSubtarget.regs)
    (pre : list PDMCaptureSubtarget.inputs) : Prop :=
  match p with
  | AfterFall =>
      PDMCaptureSubtarget.fsm r = PDMCaptureSubtarget.REPORT
      /\ List.length (rises pre) = List.length (falls pre)
      /\ channels_of (PDMCaptureSubtarget.pins_current r)
         = previous_period_word pre
  | Low =>
      PDMCaptureSubtarget.fsm r = PDMCaptureSubtarget.WAIT_RISING_EDGE
      /\ List.length (rises pre) = List.length (falls pre)
      /\ PDMCaptureSubtarget.channels r = previous_period_word pre
  | High =>
      PDMCaptureSubtarget.fsm r = PDMCaptureSubtarget.WAIT_FALLING_EDGE
      /\ List.length (rises pre) = S (List.length (falls pre))
      /\ PDMCaptureSubtarget.channels r = previous_period_word pre
      /\ (forall i, 0 <= i < 3 ->
            Z.testbit (PDMCaptureSubtarget.pins_current r) i
            = Z.testbit (nth (List.length (falls pre)) (rises pre) 0) i)
  end.

(** *** The host loop *)

(** How the loop is left when every write succeeds: by the first chunk
    with the sentinel, by the first read that raises, or not at all. *)
Fixpoint loop_exit_of (transport : list AudioPDMApplet.read_event)
  : AudioPDMApplet.loop_exit :=
  match transport with
  | [] => AudioPDMApplet.LoopAwait
  | AudioPDMApplet.ReadRaises e :: _ => AudioPDMApplet.LoopRaise e
  | AudioPDMApplet.Chunk data :: rest =>
      if AudioPDMApplet.contains_0xff data then AudioPDMApplet.LoopEnd
      else loop_exit_of rest
  end.

(** Reads that all return a chunk without the sentinel. *)
Definition clean (transport : list AudioPDMApplet.read_event) : bool :=
  forallb (fun ev => match ev with
                     | AudioPDMApplet.Chunk data =>
                         negb (AudioPDMApplet.contains_0xff data)
                     | AudioPDMApplet.ReadRaises _ => false
                     end) transport.

(** The bytes of all the chunks, in order. *)
Definition chunk_bytes (transport : list AudioPDMApplet.read_event) : list byte :=
  List.concat (map (fun ev => match ev with
                         | AudioPDMApplet.Chunk data => data
                         | AudioPDMApplet.ReadRaises _ => []
                         end) transport).

(** The first [n] calls of [write] succeed. *)
Definition writes_ok (d : AudioPDMApplet.disk) (n : nat) : Prop :=
  forall k, (k < n)%nat -> d k = AudioPDMApplet.WriteOk.

(** The call of [write] number [n] is the first that fails, with [msg]. *)
Definition first_failure (d : AudioPDMApplet.disk) (n : nat) (msg : string)
  : Prop :=
  writes_ok d n /\ exists partial, d n = AudioPDMApplet.WriteFails partial msg.

(** Where the body of the [try] stands with respect to the disk: every
    write so far succeeded, and an exception, if any, came from a read; or
    the last write is the first one to fail and its [OSError] is the
    exception. *)
Definition try_body_sound (d : AudioPDMApplet.disk)
    (transport : list AudioPDMApplet.read_event)
    (raised : option AudioPDMApplet.exn) (st : AudioPDMApplet.locals) : Prop :=
  let calls := AudioPDMApplet.write_calls (AudioPDMApplet.f st) in
  (writes_ok d calls
   /\ forall e, raised = Some e -> In (AudioPDMApplet.ReadRaises e) transport)
  \/ (exists n msg, calls = S n /\ first_failure d n msg
                    /\ raised = Some (AudioPDMApplet.OSError msg)).

Definition raised_of (ex : AudioPDMApplet.loop_exit) : option AudioPDMApplet.exn :=
  match ex with
  | AudioPDMApplet.LoopRaise e => Some e
  | _ => None
  end.

(** The transport of the example: an empty chunk, two chunks of data, the
    second with the sentinel in its middle, and one more chunk. *)
Definition example_transport : list AudioPDMApplet.read_event :=
  [ AudioPDMApplet.Chunk [];
    AudioPDMApplet.Chunk [x01; x02];
    AudioPDMApplet.Chunk [x03; xff; x04];
    AudioPDMApplet.Chunk [x05] ].

Definition overrun_entry : AudioPDMApplet.level * string :=
  (AudioPDMApplet.ERROR, "FIFO overrun, shutting down"%string).

Definition write_error_entry (msg : string) : AudioPDMApplet.level * string :=
  (AudioPDMApplet.ERROR, String.append "Error writing to file: " msg).

(** *** Further vocabulary for the streamer *)

(** How far a streamer in state [st] is ahead of the rate of one write in
    two cycles. *)
Definition slack (st : FIFOStreamer.state) : nat :=
  match st with
  | FIFOStreamer.IDLE => 1
  | FIFOStreamer.WAIT => 0
  | FIFOStreamer.REPORT_OVERRUN => 2
  end.

(** The cycles in which a strobe meets a full queue. *)
Definition count_full_strobes (ins : list FIFOStreamer.inputs) : nat :=
  List.length
    (filter (fun i => FIFOStreamer.strobe i && negb (FIFOStreamer.w_rdy i)) ins).

(** The sentinels among the bytes written. *)
Definition count_sentinels (bytes : list Z) : nat :=
  count_occ Z.eq_dec bytes FIFOStreamer.sentinel.

(** *** Further vocabulary for the subtarget *)

(** The queue has room in every cycle with a falling strobe. *)
Definition room_at_falls (ins : list PDMCaptureSubtarget.inputs) : bool :=
  forallb (fun i => implb (PDMCaptureSubtarget.stb_f i)
                          (PDMCaptureSubtarget.w_rdy i)) ins.

(** The stream of sample words of the cycles [ins], one for each falling
    strobe: 0 for the first, and for each later one the interleave of the
    samples of the period before it. *)
Definition period_words (ins : list PDMCaptureSubtarget.inputs) : list Z :=
  map (fun k => match k with
                | O => 0
                | S j => interleave (nth j (rises ins) 0) (nth j (falls ins) 0)
                end)
      (seq 0 (List.length (falls ins))).

(** The state of the streamer by the phase of a clock with the gap, when
    the queue has room at every falling strobe. *)
Definition streamer_tracks (p : phase) (st : FIFOStreamer.state) : Prop :=
  match p with
  | AfterFall => st = FIFOStreamer.IDLE \/ st = FIFOStreamer.WAIT
  | Low | High => st = FIFOStreamer.IDLE
  end.

(** Two cycles with the same strobes and the same [w_rdy], and the same
    pin values if there is a strobe. *)
Definition same_samples (a b : PDMCaptureSubtarget.inputs) : Prop :=
  PDMCaptureSubtarget.stb_r a = PDMCaptureSubtarget.stb_r b
  /\ PDMCaptureSubtarget.stb_f a = PDMCaptureSubtarget.stb_f b
  /\ PDMCaptureSubtarget.w_rdy a = PDMCaptureSubtarget.w_rdy b
  /\ (PDMCaptureSubtarget.stb_r a || PDMCaptureSubtarget.stb_f a = true ->
      PDMCaptureSubtarget.pins_i a = PDMCaptureSubtarget.pins_i b).

(* ------------------------------------------------------------------ *)
(** * Properties *)

(** ** Signals *)

Section SignalFacts.

Import Signal.

Lemma trunc_mod width v : 0 <= width -> trunc width v = v mod 2 ^ width.
Proof. intros Hw. unfold trunc. now rewrite Z.land_ones. Qed.

Lemma trunc_range width v : 0 <= width -> 0 <= trunc width v < 2 ^ width.
Proof.
  intros Hw. rewrite trunc_mod by assumption.
  apply Z.mod_pos_bound. now apply Z.pow_pos_nonneg.
Qed.

Lemma trunc_small width v : 0 <= v < 2 ^ width -> trunc width v = v.
Proof.
  intros Hv. destruct (Z.ltb_spec width 0) as [Hneg | Hw].
  - rewrite Z.pow_neg_r in Hv by assumption. lia.
  - rewrite trunc_mod by assumption. now apply Z.mod_small.
Qed.

Lemma trunc_testbit width v k :
  0 <= width -> 0 <= k ->
  Z.testbit (trunc width v) k = Z.testbit v k && (k <? width).
Proof.
  intros Hw Hk. unfold trunc. rewrite Z.land_spec.
  destruct (Z.ltb_spec k width).
  - rewrite Z.ones_spec_low by lia. reflexivity.
  - rewrite Z.ones_spec_high by lia. reflexivity.
Qed.

Lemma set_slice_testbit old lo len v k :
  0 <= lo -> 0 <= len -> 0 <= k ->
  Z.testbit (set_slice old lo len v) k =
    if (lo <=? k) && (k <? lo + len)
    then Z.testbit v (k - lo)
    else Z.testbit old k.
Proof.
  intros Hlo Hlen Hk. unfold set_slice.
  rewrite Z.lor_spec, Z.land_spec, Z.lnot_spec by assumption.
  rewrite !Z.shiftl_spec by assumption.
  destruct (Z.leb_spec lo k) as [Hle | Hlt]; cbn [andb].
  - rewrite trunc_testbit by lia.
    destruct (Z.ltb_spec k (lo + len)) as [Hin | Hout].
    + rewrite Z.ones_spec_low by lia.
      replace (k - lo <? len) with true by (symmetry; apply Z.ltb_lt; lia).
      cbn. now rewrite andb_false_r, andb_true_r.
    + rewrite Z.ones_spec_high by lia.
      replace (k - lo <? len) with false by (symmetry; apply Z.ltb_ge; lia).
      cbn. now rewrite andb_true_r, andb_false_r, orb_false_r.
  - rewrite (Z.testbit_neg_r _ (k - lo)) by lia.
    rewrite (Z.testbit_neg_r (trunc len v)) by lia.
    cbn. now rewrite andb_true_r, orb_false_r.
Qed.

End SignalFacts.

(** ** FIFOStreamer *)

Section StreamerFacts.

Import FIFOStreamer.

Variable width : Z.

Lemma run_app st ins1 ins2 :
  run width st (ins1 ++ ins2) =
    run width st ins1 ++ run width (final width st ins1) ins2.
Proof.
  revert st. induction ins1 as [| i ins1 IH]; intros st; cbn; [reflexivity |].
  destruct (step width st i) as [st' o] eqn:E. cbn. now rewrite IH.
Qed.

Lemma final_app st ins1 ins2 :
  final width st (ins1 ++ ins2) = final width (final width st ins1) ins2.
Proof.
  revert st. induction ins1 as [| i ins1 IH]; intros st; cbn; [reflexivity |].
  apply IH.
Qed.

Lemma writes_app outs1 outs2 :
  writes (outs1 ++ outs2) = writes outs1 ++ writes outs2.
Proof.
  induction outs1 as [| o outs1 IH]; cbn; [reflexivity |].
  destruct (w_en o); cbn; now rewrite IH.
Qed.

Lemma init_range : init width = Some width -> 0 < width <= 7.
Proof.
  unfold init. destruct (Z.ltb_spec 0 width), (Z.leb_spec width 7);
    cbn; intros E; try discriminate; lia.
Qed.

Lemma data_byte_range v :
  0 < width <= 7 ->
  let b := Signal.trunc 8 (Signal.trunc width v) in
  b = Signal.trunc width v /\ 0 <= b < 2 ^ width /\ b <= 127.
Proof.
  intros Hw b.
  assert (Hr : 0 <= Signal.trunc width v < 2 ^ width)
    by (apply trunc_range; lia).
  assert (Hp : 2 ^ width <= 2 ^ 7) by (apply Z.pow_le_mono_r; lia).
  change (2 ^ 7) with 128 in Hp.
  assert (Hb : b = Signal.trunc width v).
  { unfold b. apply trunc_small. change (2 ^ 8) with 256. lia. }
  rewrite Hb. lia.
Qed.

(** While the queue has no room, [REPORT_OVERRUN] holds and drives
    nothing. *)
Lemma stalled_in_report_overrun stall :
  Forall (fun i => w_rdy i = false) stall ->
  run width REPORT_OVERRUN stall = map (fun _ => no_write) stall
  /\ final width REPORT_OVERRUN stall = REPORT_OVERRUN.
Proof.
  induction 1 as [| i stall Hi _ [IHr IHf]]; cbn; [now split |].
  rewrite Hi. cbn. now rewrite IHr, IHf.
Qed.

Lemma writes_no_write {A} (l : list A) :
  writes (map (fun _ => no_write) l) = [].
Proof. induction l; cbn; auto. Qed.

End StreamerFacts.

(** *** Overrun: the sample is lost and the sentinel is the next byte *)

(** C3. Take any execution that is in [IDLE] after a prefix [pre] and then
    sees a strobe while the queue is full, with sample [d] on the data
    lines. That cycle writes nothing and leads to [REPORT_OVERRUN]. The
    sample is lost for good: whatever follows, the port values of the whole
    execution are the same for any other sample [d'] in that cycle. While
    the queue stays full ([stall]) nothing is written; in the first cycle
    [c] with room the sentinel 0xFF is written, it is the next byte that
    enters the queue, and the machine is back in [IDLE], so the rest of the
    execution is that of a streamer in [IDLE]. *)
Theorem overrun_drops_sample_then_writes_sentinel
    (width d : Z) (pre stall rest : list FIFOStreamer.inputs)
    (c : FIFOStreamer.inputs) :
  FIFOStreamer.final width FIFOStreamer.IDLE pre = FIFOStreamer.IDLE ->
  Forall (fun i => FIFOStreamer.w_rdy i = false) stall ->
  FIFOStreamer.w_rdy c = true ->
  FIFOStreamer.step width FIFOStreamer.IDLE (overrun_cycle d)
    = (FIFOStreamer.REPORT_OVERRUN, FIFOStreamer.no_write)
  /\ (forall d' tail,
        FIFOStreamer.run width FIFOStreamer.IDLE (pre ++ overrun_cycle d' :: tail)
        = FIFOStreamer.run width FIFOStreamer.IDLE (pre ++ overrun_cycle d :: tail))
  /\ FIFOStreamer.run width FIFOStreamer.IDLE (pre ++ overrun_cycle d :: stall ++ [c])
     = FIFOStreamer.run width FIFOStreamer.IDLE pre
       ++ FIFOStreamer.no_write
       :: map (fun _ => FIFOStreamer.no_write) stall
       ++ [{| FIFOStreamer.w_data := FIFOStreamer.sentinel;
              FIFOStreamer.w_en := true |}]
  /\ FIFOStreamer.final width FIFOStreamer.IDLE
       (pre ++ overrun_cycle d :: stall ++ [c]) = FIFOStreamer.IDLE
  /\ FIFOStreamer.writes
       (FIFOStreamer.run width FIFOStreamer.IDLE
          (pre ++ overrun_cycle d :: stall ++ c :: rest))
     = FIFOStreamer.writes (FIFOStreamer.run width FIFOStreamer.IDLE pre)
       ++ FIFOStreamer.sentinel
       :: FIFOStreamer.writes (FIFOStreamer.run width FIFOStreamer.IDLE rest).
Proof.
  intros Hpre Hstall Hc.
  destruct (stalled_in_report_overrun width stall Hstall) as [Hrun Hfin].
  assert (Hone : FIFOStreamer.run width FIFOStreamer.IDLE
                   (pre ++ overrun_cycle d :: stall ++ [c])
                 = FIFOStreamer.run width FIFOStreamer.IDLE pre
                   ++ FIFOStreamer.no_write
                   :: map (fun _ => FIFOStreamer.no_write) stall
                   ++ [{| FIFOStreamer.w_data := FIFOStreamer.sentinel;
                          FIFOStreamer.w_en := true |}]).
  { rewrite run_app, Hpre. cbn. rewrite run_app, Hrun, Hfin. cbn.
    now rewrite Hc. }
  assert (Hend : FIFOStreamer.final width FIFOStreamer.IDLE
                   (pre ++ overrun_cycle d :: stall ++ [c]) = FIFOStreamer.IDLE).
  { rewrite final_app, Hpre. cbn. rewrite final_app, Hfin. cbn.
    now rewrite Hc. }
  repeat split.
  - intros d' tail. now rewrite !run_app, Hpre.
  - exact Hone.
  - exact Hend.
  - replace (pre ++ overrun_cycle d :: stall ++ c :: rest)
      with ((pre ++ overrun_cycle d :: stall ++ [c]) ++ rest)
      by (rewrite <- !app_assoc; cbn; now rewrite <- app_assoc).
    rewrite run_app, Hend, Hone, !writes_app. cbn.
    rewrite writes_app, writes_no_write. cbn.
    now rewrite <- app_assoc.
Qed.

Lemma overrun_drops_sample_then_writes_sentinel_witness :
  let busy := {| FIFOStreamer.strobe := false; FIFOStreamer.data := 9;
                 FIFOStreamer.w_rdy := false |} in
  let room := {| FIFOStreamer.strobe := false; FIFOStreamer.data := 9;
                 FIFOStreamer.w_rdy := true |} in
  let next := {| FIFOStreamer.strobe := true; FIFOStreamer.data := 42;
                 FIFOStreamer.w_rdy := true |} in
  FIFOStreamer.writes
    (FIFOStreamer.run 6 FIFOStreamer.IDLE
       ([next; busy] ++ overrun_cycle 17 :: [busy; busy] ++ room :: [next]))
  = FIFOStreamer.writes (FIFOStreamer.run 6 FIFOStreamer.IDLE [next; busy])
    ++ FIFOStreamer.sentinel
    :: FIFOStreamer.writes (FIFOStreamer.run 6 FIFOStreamer.IDLE [next]).
Proof.
  intros busy room next.
  assert (Hpre : FIFOStreamer.final 6 FIFOStreamer.IDLE [next; busy]
                 = FIFOStreamer.IDLE) by reflexivity.
  assert (Hstall : Forall (fun i => FIFOStreamer.w_rdy i = false) [busy; busy])
    by (repeat constructor).
  assert (Hc : FIFOStreamer.w_rdy room = true) by reflexivity.
  exact (proj2 (proj2 (proj2 (proj2
    (overrun_drops_sample_then_writes_sentinel 6 17 [next; busy] [busy; busy]
       [next] room Hpre Hstall Hc))))).
Defined.

(** *** One write per strobe *)

Section OneWritePerStrobe.

Import FIFOStreamer.

Variable width : Z.
Hypothesis width_ok : 0 < width <= 7.

Lemma writes_bounded_by_strobes st ins :
  (List.length (writes (run width st ins)) <= count_strobes ins + owed st)%nat.
Proof.
  revert st. unfold count_strobes.
  induction ins as [| i ins IH]; intros st; cbn; [lia |].
  destruct st; cbn; destruct (strobe i); destruct (w_rdy i); cbn;
    match goal with
    | |- context [run width ?s ins] => specialize (IH s); cbn in IH; lia
    end.
Qed.

Lemma writes_data_or_sentinel st ins :
  Forall (fun w => 0 <= w < 2 ^ width \/ w = sentinel)
         (writes (run width st ins)).
Proof.
  revert st. induction ins as [| i ins IH]; intros st; cbn; [constructor |].
  destruct st; cbn; destruct (strobe i); destruct (w_rdy i); cbn;
    try apply IH; constructor; try apply IH.
  all: try (right; reflexivity).
  all: left; destruct (data_byte_range width (data i) width_ok) as (_ & H & _);
    exact H.
Qed.

Lemma sentinel_is_no_data_byte : ~ (0 <= sentinel < 2 ^ width).
Proof.
  assert (Hp : 2 ^ width <= 2 ^ 7) by (apply Z.pow_le_mono_r; lia).
  change (2 ^ 7) with 128 in Hp. unfold sentinel. lia.
Qed.

Lemma no_sentinel_with_room st ins :
  st <> REPORT_OVERRUN ->
  room_at_every_strobe ins = true ->
  Forall (fun w => 0 <= w < 2 ^ width) (writes (run width st ins)).
Proof.
  revert st. induction ins as [| i ins IH]; intros st Hst Hroom; cbn;
    [constructor |].
  cbn in Hroom. apply andb_true_iff in Hroom as [Hi Hroom].
  destruct st; try congruence; cbn.
  - destruct (strobe i); cbn in Hi.
    + rewrite Hi. cbn. constructor.
      * destruct (data_byte_range width (data i) width_ok) as (_ & H & _).
        exact H.
      * apply IH; [discriminate | assumption].
    + cbn. apply IH; [discriminate | assumption].
  - apply IH; [discriminate | assumption].
Qed.

Lemma every_strobe_writes ins :
  room_at_every_strobe ins = true ->
  strobes_apart ins = true ->
  run width IDLE ins = map (sample_write width) ins
  /\ (match ins with
      | i :: _ => strobe i = false
      | [] => True
      end -> run width WAIT ins = map (sample_write width) ins).
Proof.
  induction ins as [| i ins IH]; intros Hroom Hapart; [now split |].
  cbn in Hroom. apply andb_true_iff in Hroom as [Hi Hroom].
  assert (Htail : strobes_apart ins = true).
  { destruct ins as [| j ins]; [reflexivity |].
    cbn in Hapart. now apply andb_true_iff in Hapart as [_ H]. }
  destruct (IH Hroom Htail) as [IHidle IHwait].
  split.
  - cbn. unfold sample_write at 1.
    destruct (strobe i) eqn:Es; cbn in Hi.
    + rewrite Hi. cbn. f_equal.
      * destruct (data_byte_range width (data i) width_ok) as (-> & _).
        reflexivity.
      * apply IHwait. destruct ins as [| j ins]; [exact I |].
        cbn in Hapart. rewrite Es in Hapart. cbn in Hapart.
        apply andb_true_iff in Hapart as [H _].
        now apply negb_true_iff in H.
    + cbn. now rewrite IHidle.
  - intros Hhead. cbn. unfold sample_write at 1. rewrite Hhead.
    now rewrite IHidle.
Qed.

Lemma writes_sample_writes ins :
  writes (map (sample_write width) ins)
  = map (fun i => Signal.trunc width (data i)) (filter strobe ins).
Proof.
  induction ins as [| i ins IH]; cbn; [reflexivity |].
  unfold sample_write at 1 2. destruct (strobe i); cbn; now rewrite IH.
Qed.

(** After a data byte the streamer is in [WAIT]: the next cycle drives
    nothing, whatever its inputs, and leads back to [IDLE]. *)
Lemma cooldown_after_data_write st a b rest :
  let o := snd (step width st a) in
  w_en o = true -> w_data o <> sentinel ->
  run width st (a :: b :: rest) = o :: no_write :: run width IDLE rest.
Proof.
  destruct st; cbn [run step].
  - destruct (strobe a); [| discriminate].
    destruct (w_rdy a); [| discriminate]. reflexivity.
  - destruct (w_rdy a); [| discriminate]. cbn. intros _ H.
    now contradiction H.
  - discriminate.
Qed.

End OneWritePerStrobe.

(** C4, the claim as written fails: two strobes in consecutive cycles, the
    queue with room at both, and only the first sample is written; the
    second strobe falls in [WAIT] and produces no byte. *)
Lemma back_to_back_strobes_write_once :
  let ins := [ {| FIFOStreamer.strobe := true; FIFOStreamer.data := 1;
                  FIFOStreamer.w_rdy := true |};
               {| FIFOStreamer.strobe := true; FIFOStreamer.data := 2;
                  FIFOStreamer.w_rdy := true |} ] in
  room_at_every_strobe ins = true
  /\ count_strobes ins = 2%nat
  /\ FIFOStreamer.writes (FIFOStreamer.run 6 FIFOStreamer.IDLE ins) = [1].
Proof. cbv. repeat split. Qed.

(** C4, amended. For every input sequence of a streamer built with a width
    the constructor accepts: the bytes written are never more than the
    cycles with a strobe; every byte written is a data byte (below
    [2 ^ width], so at most 0x7F) or the sentinel 0xFF, never both; if the
    queue has room at every strobe the sentinel is never written; and if
    moreover no two strobes come in consecutive cycles, every strobe writes
    exactly its own sample in its own cycle and nothing else is written.
    The cycle right after a data write drives nothing, strobe or not (the
    [WAIT] cooldown): a strobe in that cycle produces no byte, and the
    streamer is in [IDLE] again in the cycle after it. *)
Theorem streamer_one_write_per_strobe
    (width : Z) (ins : list FIFOStreamer.inputs) :
  FIFOStreamer.init width = Some width ->
  let outs := FIFOStreamer.run width FIFOStreamer.IDLE ins in
  (List.length (FIFOStreamer.writes outs) <= count_strobes ins)%nat
  /\ Forall (fun w => (0 <= w < 2 ^ width /\ w <> FIFOStreamer.sentinel)
                      \/ (w = FIFOStreamer.sentinel /\ ~ 0 <= w < 2 ^ width))
            (FIFOStreamer.writes outs)
  /\ (room_at_every_strobe ins = true ->
      ~ In FIFOStreamer.sentinel (FIFOStreamer.writes outs))
  /\ (room_at_every_strobe ins = true -> strobes_apart ins = true ->
      outs = map (sample_write width) ins
      /\ FIFOStreamer.writes outs
         = map (fun i => Signal.trunc width (FIFOStreamer.data i))
               (filter FIFOStreamer.strobe ins)
      /\ List.length (FIFOStreamer.writes outs) = count_strobes ins)
  /\ (forall pre a b rest,
        ins = pre ++ a :: b :: rest ->
        let o := snd (FIFOStreamer.step width
                        (FIFOStreamer.final width FIFOStreamer.IDLE pre) a) in
        FIFOStreamer.w_en o = true ->
        FIFOStreamer.w_data o <> FIFOStreamer.sentinel ->
        outs = FIFOStreamer.run width FIFOStreamer.IDLE pre
               ++ o :: FIFOStreamer.no_write
               :: FIFOStreamer.run width FIFOStreamer.IDLE rest).
Proof.
  intros Hinit outs. apply init_range in Hinit.
  pose proof (sentinel_is_no_data_byte width Hinit) as Hsent.
  repeat apply conj.
  - pose proof (writes_bounded_by_strobes width FIFOStreamer.IDLE ins) as H.
    cbn in H. unfold outs. lia.
  - eapply Forall_impl; [| apply (writes_data_or_sentinel width Hinit)].
    intros w [Hw | Hw]; [left | right]; split; auto; congruence.
  - intros Hroom Hin.
    assert (HF := no_sentinel_with_room width Hinit FIFOStreamer.IDLE ins
                    ltac:(discriminate) Hroom).
    rewrite Forall_forall in HF. apply Hsent. now apply HF.
  - intros Hroom Hapart.
    destruct (every_strobe_writes width Hinit ins Hroom Hapart) as [Hrun _].
    unfold outs. rewrite Hrun, writes_sample_writes.
    repeat split. unfold count_strobes. now rewrite length_map.
  - intros pre a b rest -> o Hen Hdata. unfold outs.
    rewrite run_app. f_equal.
    now apply cooldown_after_data_write.
Qed.

Lemma streamer_one_write_per_strobe_witness :
  let s d := {| FIFOStreamer.strobe := true; FIFOStreamer.data := d;
                FIFOStreamer.w_rdy := true |} in
  let q := {| FIFOStreamer.strobe := false; FIFOStreamer.data := 0;
              FIFOStreamer.w_rdy := false |} in
  FIFOStreamer.writes
    (FIFOStreamer.run 6 FIFOStreamer.IDLE [s 5; q; s 63; q; q; s 70])
  = map (fun i => Signal.trunc 6 (FIFOStreamer.data i))
        (filter FIFOStreamer.strobe [s 5; q; s 63; q; q; s 70])
  /\ FIFOStreamer.run 6 FIFOStreamer.IDLE [q; s 1; s 2; s 3]
     = FIFOStreamer.run 6 FIFOStreamer.IDLE [q]
       ++ {| FIFOStreamer.w_data := 1; FIFOStreamer.w_en := true |}
       :: FIFOStreamer.no_write
       :: FIFOStreamer.run 6 FIFOStreamer.IDLE [s 3].
Proof.
  intros s q. split.
  - exact (proj1 (proj2 (proj1 (proj2 (proj2 (proj2
      (streamer_one_write_per_strobe 6 [s 5; q; s 63; q; q; s 70] eq_refl))))
      eq_refl eq_refl))).
  - refine (proj2 (proj2 (proj2 (proj2
      (streamer_one_write_per_strobe 6 [q; s 1; s 2; s 3] eq_refl))))
      [q] (s 1) (s 2) [s 3] eq_refl eq_refl _).
    cbv. discriminate.
Defined.

(** *** The sentinel and the data bytes *)

(** C8, the claim as written fails: with all six interleaved bits 1 the
    sample word is 63, and the byte [IDLE] writes for it is 0x3F, not the
    sentinel 0xFF. *)
Lemma all_ones_word_is_not_sentinel :
  let all_ones := Signal.Cat [1; 1; 1; 1; 1; 1] in
  let port := snd (FIFOStreamer.step 6 FIFOStreamer.IDLE
                     {| FIFOStreamer.strobe := true;
                        FIFOStreamer.data := all_ones;
                        FIFOStreamer.w_rdy := true |}) in
  all_ones = 63
  /\ FIFOStreamer.w_en port = true
  /\ FIFOStreamer.w_data port = 63
  /\ FIFOStreamer.w_data port <> FIFOStreamer.sentinel.
Proof. cbv. repeat split. discriminate. Qed.

(** C8, amended. For a streamer of any width the constructor accepts and
    any sample word, the byte written in [IDLE] is the word in its [width]
    low bits with the upper bits 0: it is below [2 ^ width], at most 0x7F,
    and never equal to the sentinel 0xFF. The sentinel is outside the
    alphabet of the data bytes. *)
Theorem data_byte_never_sentinel
    (width : Z) (i : FIFOStreamer.inputs) :
  FIFOStreamer.init width = Some width ->
  let port := snd (FIFOStreamer.step width FIFOStreamer.IDLE i) in
  FIFOStreamer.w_en port = true ->
  FIFOStreamer.w_data port = Signal.trunc width (FIFOStreamer.data i)
  /\ 0 <= FIFOStreamer.w_data port < 2 ^ width
  /\ FIFOStreamer.w_data port <= 127
  /\ FIFOStreamer.w_data port <> FIFOStreamer.sentinel.
Proof.
  intros Hinit port. apply init_range in Hinit.
  unfold port. cbn.
  destruct (FIFOStreamer.strobe i); [| discriminate].
  destruct (FIFOStreamer.w_rdy i); [| discriminate].
  cbn. intros _.
  destruct (data_byte_range width (FIFOStreamer.data i) Hinit) as (He & Hr & Hm).
  rewrite He in *. unfold FIFOStreamer.sentinel. repeat split; lia.
Qed.

Lemma data_byte_never_sentinel_witness :
  let i := {| FIFOStreamer.strobe := true; FIFOStreamer.data := 63;
              FIFOStreamer.w_rdy := true |} in
  FIFOStreamer.w_data (snd (FIFOStreamer.step 6 FIFOStreamer.IDLE i))
  <> FIFOStreamer.sentinel.
Proof.
  intros i.
  exact (proj2 (proj2 (proj2 (data_byte_never_sentinel 6 i eq_refl eq_refl)))).
Defined.

(** ** PDMCaptureSubtarget *)

(** *** Elaboration and the width of the pin set *)

Section ElaborationFacts.

Import PDMCaptureSubtarget.

(** Every index of [REPORT] is within a signal of [width] bits exactly
    when the signal has at least 6 bits. *)
Lemma getitems_report_indices width :
  0 <= width ->
  (exists bits, getitems width report_indices = inr bits) <-> 6 <= width.
Proof.
  intros Hw. unfold report_indices, getitems, getitem, bind, ret. split.
  - intros [bits H].
    destruct (Z.ltb_spec 5 width) as [Hlt | Hge]; [lia |].
    destruct (Z.ltb_spec 0 width), (Z.ltb_spec 3 width),
      (Z.ltb_spec 1 width), (Z.ltb_spec 4 width), (Z.ltb_spec 2 width);
      rewrite ?andb_false_r, ?andb_true_r in H;
      repeat match type of H with
             | context [?a <=? ?b] => destruct (a <=? b)
             end; try discriminate; lia.
  - intros H6. exists report_indices.
    repeat match goal with
           | |- context [?a <? width] =>
               replace (a <? width) with true
                 by (symmetry; apply Z.ltb_lt; lia)
           | |- context [- width <=? ?a] =>
               replace (- width <=? a) with true
                 by (symmetry; apply Z.leb_le; lia)
           end.
    reflexivity.
Qed.

Lemma elaborate_only_three n : 
  (exists d, elaborate n = inr d) -> n = 3.
Proof.
  intros [d H]. unfold elaborate, bind in H.
  destruct (FIFOStreamer.init (n * 2)) as [w |] eqn:Ei; [| discriminate].
  unfold FIFOStreamer.init in Ei.
  destruct (Z.ltb_spec 0 (n * 2)), (Z.leb_spec (n * 2) 7);
    cbn in Ei; try discriminate.
  unfold ret in H. cbv beta iota in H.
  destruct (getitems (n * 2) report_indices) as [e | bits] eqn:Eg;
    [discriminate |].
  assert (6 <= n * 2).
  { apply getitems_report_indices; [lia | eauto]. }
  lia.
Qed.

End ElaborationFacts.

(** C10. The applet declares the pin set [i] with width 3, so the subtarget
    it builds has [n = 3]: elaboration succeeds, [pins_current] has 6 bits
    and the reads of its bits 3, 4 and 5 in [REPORT] are in bounds. For any
    other [n] elaboration fails: the permutation reads bits 0 to 5 of a
    signal of [2 * n] bits whatever [n] is, which raises [IndexError] below
    [n = 3], and the streamer's constructor refuses the width [2 * n] above
    [n = 3]. *)
Theorem elaboration_needs_three_channels :
  AudioPDMApplet.pin_set_i_width = 3
  /\ AudioPDMApplet.build = inr design3
  /\ PDMCaptureSubtarget.n design3 = AudioPDMApplet.pin_set_i_width
  /\ (forall k, In k [3; 4; 5] ->
        PDMCaptureSubtarget.getitem (PDMCaptureSubtarget.n design3 * 2) k
        = inr k)
  /\ (forall n, (exists d, PDMCaptureSubtarget.elaborate n = inr d) <-> n = 3)
  /\ (forall n, 0 <= n ->
        ((exists bits,
            PDMCaptureSubtarget.getitems (n * 2)
              PDMCaptureSubtarget.report_indices = inr bits)
         <-> 3 <= n)).
Proof.
  split; [reflexivity |]. split; [reflexivity |]. split; [reflexivity |].
  split; [| split].
  - intros k Hk. cbn in Hk.
    destruct Hk as [<- | [<- | [<- | []]]]; reflexivity.
  - intros n. split.
    + apply elaborate_only_three.
    + intros ->. now exists design3.
  - intros n Hn. rewrite getitems_report_indices by lia. lia.
Qed.

(** *** The channel interleave *)

Section InterleaveFacts.

Import PDMCaptureSubtarget.

Lemma Cat6_bits (b0 b1 b2 b3 b4 b5 : bool) :
  let w := Signal.Cat [Z.b2z b0; Z.b2z b1; Z.b2z b2;
                       Z.b2z b3; Z.b2z b4; Z.b2z b5] in
  Signal.trunc 6 w = w
  /\ Z.testbit w 0 = b0 /\ Z.testbit w 1 = b1 /\ Z.testbit w 2 = b2
  /\ Z.testbit w 3 = b3 /\ Z.testbit w 4 = b4 /\ Z.testbit w 5 = b5
  /\ 0 <= w < 64.
Proof.
  destruct b0, b1, b2, b3, b4, b5; cbv; repeat split; discriminate.
Qed.

Lemma interleave_testbit rise fall i :
  0 <= i < 3 ->
  Z.testbit (interleave rise fall) (2 * i) = Z.testbit rise i
  /\ Z.testbit (interleave rise fall) (2 * i + 1) = Z.testbit fall i.
Proof.
  intros Hi. unfold interleave, Signal.bit.
  destruct (Cat6_bits (Z.testbit rise 0) (Z.testbit fall 0)
              (Z.testbit rise 1) (Z.testbit fall 1)
              (Z.testbit rise 2) (Z.testbit fall 2))
    as (_ & H0 & H1 & H2 & H3 & H4 & H5 & _).
  assert (Hc : i = 0 \/ i = 1 \/ i = 2) by lia.
  destruct Hc as [-> | [-> | ->]]; split; assumption.
Qed.

Lemma interleave_range rise fall : 0 <= interleave rise fall < 64.
Proof.
  unfold interleave, Signal.bit.
  apply (Cat6_bits (Z.testbit rise 0) (Z.testbit fall 0)
           (Z.testbit rise 1) (Z.testbit fall 1)
           (Z.testbit rise 2) (Z.testbit fall 2)).
Qed.

Lemma rising_half pc pins i :
  0 <= i < 3 ->
  Z.testbit (Signal.set_slice pc 0 3 pins) i = Z.testbit pins i.
Proof.
  intros Hi. rewrite set_slice_testbit by lia.
  replace ((0 <=? i) && (i <? 0 + 3)) with true
    by (symmetry; apply andb_true_iff; split;
        [apply Z.leb_le | apply Z.ltb_lt]; lia).
  now rewrite Z.sub_0_r.
Qed.

Lemma falling_half pc pins i :
  0 <= i < 3 ->
  Z.testbit (Signal.set_slice pc 3 3 pins) (3 + i) = Z.testbit pins i
  /\ Z.testbit (Signal.set_slice pc 3 3 pins) i = Z.testbit pc i.
Proof.
  intros Hi. rewrite !set_slice_testbit by lia.
  replace ((3 <=? 3 + i) && (3 + i <? 3 + 3)) with true
    by (symmetry; apply andb_true_iff; split;
        [apply Z.leb_le | apply Z.ltb_lt]; lia).
  replace (3 <=? i) with false by (symmetry; apply Z.leb_gt; lia).
  split; [f_equal; lia | reflexivity].
Qed.

(** [REPORT] reads the pair of half-registers that the two edges
    filled. *)
Lemma channels_of_halves pc rise fall :
  (forall i, 0 <= i < 3 -> Z.testbit pc i = Z.testbit rise i) ->
  channels_of (Signal.set_slice pc 3 3 fall) = interleave rise fall.
Proof.
  intros Hlow.
  set (pc' := Signal.set_slice pc 3 3 fall).
  assert (Hlo : forall i, 0 <= i < 3 -> Z.testbit pc' i = Z.testbit rise i).
  { intros i Hi. unfold pc'.
    rewrite (proj2 (falling_half pc fall i Hi)). now apply Hlow. }
  assert (Hhi : forall i, 0 <= i < 3 ->
                Z.testbit pc' (3 + i) = Z.testbit fall i).
  { intros i Hi. apply (proj1 (falling_half pc fall i Hi)). }
  unfold channels_of, interleave. cbn [report_bits design3 map].
  unfold Signal.bit.
  rewrite (Hlo 0), (Hlo 1), (Hlo 2) by lia.
  change 3 with (3 + 0) at 1. change 4 with (3 + 1). change 5 with (3 + 2).
  rewrite (Hhi 0), (Hhi 1), (Hhi 2) by lia.
  apply (Cat6_bits (Z.testbit rise 0) (Z.testbit fall 0)
           (Z.testbit rise 1) (Z.testbit fall 1)
           (Z.testbit rise 2) (Z.testbit fall 2)).
Qed.

End InterleaveFacts.

(** C2. In the circuit for 3 channels, take a sampling cycle: a rising
    strobe met in [WAIT_RISING_EDGE], a falling strobe met in
    [WAIT_FALLING_EDGE], then [REPORT]. The rising strobe stores the pins in
    bits 0-2 of [pins_current] and the falling strobe in bits 3-5, and the
    word [REPORT] latches into [channels], which is the streamer's [data],
    is their interleave: bit [2 * i] is the rising-edge sample of pin [i],
    bit [2 * i + 1] its falling-edge sample, that is (ch0-rise, ch0-fall,
    ch1-rise, ch1-fall, ch2-rise, ch2-fall), and there is no other bit. *)
Theorem channel_word_is_interleave
    (r : PDMCaptureSubtarget.regs)
    (rise fall rep next : PDMCaptureSubtarget.inputs)
    (st : FIFOStreamer.state) :
  PDMCaptureSubtarget.fsm r = PDMCaptureSubtarget.WAIT_RISING_EDGE ->
  PDMCaptureSubtarget.stb_r rise = true ->
  PDMCaptureSubtarget.stb_f fall = true ->
  let r1 := PDMCaptureSubtarget.sampler_step design3 r rise in
  let r2 := PDMCaptureSubtarget.sampler_step design3 r1 fall in
  let r3 := PDMCaptureSubtarget.sampler_step design3 r2 rep in
  let word := PDMCaptureSubtarget.channels r3 in
  (forall i, 0 <= i < 3 ->
     Z.testbit (PDMCaptureSubtarget.pins_current r2) i
       = Z.testbit (PDMCaptureSubtarget.pins_i rise) i
     /\ Z.testbit (PDMCaptureSubtarget.pins_current r2) (3 + i)
       = Z.testbit (PDMCaptureSubtarget.pins_i fall) i)
  /\ (forall i, 0 <= i < 3 ->
     Z.testbit word (2 * i) = Z.testbit (PDMCaptureSubtarget.pins_current r2) i
     /\ Z.testbit word (2 * i + 1)
        = Z.testbit (PDMCaptureSubtarget.pins_current r2) (3 + i))
  /\ (forall i, 0 <= i < 3 ->
     Z.testbit word (2 * i) = Z.testbit (PDMCaptureSubtarget.pins_i rise) i
     /\ Z.testbit word (2 * i + 1)
        = Z.testbit (PDMCaptureSubtarget.pins_i fall) i)
  /\ 0 <= word < 64
  /\ word = interleave (PDMCaptureSubtarget.pins_i rise)
                       (PDMCaptureSubtarget.pins_i fall)
  /\ FIFOStreamer.data
       (PDMCaptureSubtarget.streamer_inputs
          {| PDMCaptureSubtarget.sampler := r3;
             PDMCaptureSubtarget.streamer := st |} next) = word.
Proof.
  intros Hfsm Hr Hf r1 r2 r3 word.
  assert (Hpc2 : PDMCaptureSubtarget.pins_current r2
                 = Signal.set_slice
                     (Signal.set_slice (PDMCaptureSubtarget.pins_current r) 0 3
                        (PDMCaptureSubtarget.pins_i rise))
                     3 3 (PDMCaptureSubtarget.pins_i fall)).
  { unfold r2, r1, PDMCaptureSubtarget.sampler_step.
    rewrite Hfsm, Hr. cbn. now rewrite Hf. }
  assert (Hword : word = channels_of (PDMCaptureSubtarget.pins_current r2)).
  { unfold word, r3, r2, r1, PDMCaptureSubtarget.sampler_step.
    rewrite Hfsm, Hr. cbn. rewrite Hf. reflexivity. }
  assert (Hint : word = interleave (PDMCaptureSubtarget.pins_i rise)
                                   (PDMCaptureSubtarget.pins_i fall)).
  { rewrite Hword, Hpc2. apply channels_of_halves.
    intros i Hi. now apply rising_half. }
  assert (Hhalves : forall i, 0 <= i < 3 ->
     Z.testbit (PDMCaptureSubtarget.pins_current r2) i
       = Z.testbit (PDMCaptureSubtarget.pins_i rise) i
     /\ Z.testbit (PDMCaptureSubtarget.pins_current r2) (3 + i)
       = Z.testbit (PDMCaptureSubtarget.pins_i fall) i).
  { intros i Hi. rewrite Hpc2.
    destruct (falling_half
                (Signal.set_slice (PDMCaptureSubtarget.pins_current r) 0 3
                   (PDMCaptureSubtarget.pins_i rise))
                (PDMCaptureSubtarget.pins_i fall) i Hi) as [Hhi Hlo].
    rewrite Hhi, Hlo. split; [now apply rising_half | reflexivity]. }
  split; [exact Hhalves |].
  split.
  { intros i Hi. destruct (Hhalves i Hi) as [-> ->].
    rewrite Hint. now apply interleave_testbit. }
  split.
  { intros i Hi. rewrite Hint. now apply interleave_testbit. }
  split; [rewrite Hint; apply interleave_range |].
  split; [exact Hint | reflexivity].
Qed.

Lemma channel_word_is_interleave_witness :
  let r := PDMCaptureSubtarget.sampler_step design3
             (PDMCaptureSubtarget.sampler PDMCaptureSubtarget.reset)
             {| PDMCaptureSubtarget.stb_r := false;
                PDMCaptureSubtarget.stb_f := false;
                PDMCaptureSubtarget.pins_i := 0;
                PDMCaptureSubtarget.w_rdy := true |} in
  let rise := {| PDMCaptureSubtarget.stb_r := true;
                 PDMCaptureSubtarget.stb_f := false;
                 PDMCaptureSubtarget.pins_i := 5;
                 PDMCaptureSubtarget.w_rdy := true |} in
  let fall := {| PDMCaptureSubtarget.stb_r := false;
                 PDMCaptureSubtarget.stb_f := true;
                 PDMCaptureSubtarget.pins_i := 2;
                 PDMCaptureSubtarget.w_rdy := true |} in
  PDMCaptureSubtarget.channels
    (PDMCaptureSubtarget.sampler_step design3
       (PDMCaptureSubtarget.sampler_step design3
          (PDMCaptureSubtarget.sampler_step design3 r rise) fall) rise)
  = interleave 5 2.
Proof.
  intros r rise fall.
  exact (proj1 (proj2 (proj2 (proj2 (proj2
    (channel_word_is_interleave r rise fall rise rise FIFOStreamer.IDLE
       eq_refl eq_refl eq_refl)))))).
Defined.

(** One hand-computed word per channel and edge, through [reset] and a
    full sampling cycle: the pin of channel [i] high at the rising edge
    only sets bit [2 * i], high at the falling edge only sets bit
    [2 * i + 1]. *)
Example interleave_by_hand :
  let cycle rise fall :=
    [ {| PDMCaptureSubtarget.stb_r := false; PDMCaptureSubtarget.stb_f := false;
         PDMCaptureSubtarget.pins_i := 0; PDMCaptureSubtarget.w_rdy := true |};
      {| PDMCaptureSubtarget.stb_r := true; PDMCaptureSubtarget.stb_f := false;
         PDMCaptureSubtarget.pins_i := rise; PDMCaptureSubtarget.w_rdy := true |};
      {| PDMCaptureSubtarget.stb_r := false; PDMCaptureSubtarget.stb_f := true;
         PDMCaptureSubtarget.pins_i := fall; PDMCaptureSubtarget.w_rdy := true |};
      {| PDMCaptureSubtarget.stb_r := false; PDMCaptureSubtarget.stb_f := false;
         PDMCaptureSubtarget.pins_i := 0; PDMCaptureSubtarget.w_rdy := true |} ] in
  let word rise fall :=
    PDMCaptureSubtarget.channels
      (PDMCaptureSubtarget.sampler
         (PDMCaptureSubtarget.final design3 PDMCaptureSubtarget.reset
            (cycle rise fall))) in
  word 1 0 = 1 /\ word 0 1 = 2 /\ word 2 0 = 4 /\ word 0 2 = 8
  /\ word 4 0 = 16 /\ word 0 4 = 32 /\ word 5 2 = 25 /\ word 7 7 = 63.
Proof. cbv. repeat split. Qed.

(** *** [counter_prev] is dead *)

Lemma erase_step d s i :
  WithoutCounterPrev.step d (erase s) i
  = (erase (fst (PDMCaptureSubtarget.step d s i)),
     snd (PDMCaptureSubtarget.step d s i)).
Proof.
  destruct s as [r st]. unfold WithoutCounterPrev.step, PDMCaptureSubtarget.step.
  cbn.
  change (WithoutCounterPrev.streamer_inputs
            (erase {| PDMCaptureSubtarget.sampler := r;
                      PDMCaptureSubtarget.streamer := st |}) i)
    with (PDMCaptureSubtarget.streamer_inputs
            {| PDMCaptureSubtarget.sampler := r;
               PDMCaptureSubtarget.streamer := st |} i).
  destruct (FIFOStreamer.step _ st _) as [st' port]. cbn.
  f_equal. unfold erase. cbn. f_equal.
  unfold WithoutCounterPrev.sampler_step, PDMCaptureSubtarget.sampler_step.
  destruct r as [q pc ch c cp]. cbn.
  destruct q; cbn; [reflexivity | |].
  - destruct (PDMCaptureSubtarget.stb_r i); reflexivity.
  - destruct (PDMCaptureSubtarget.stb_f i); reflexivity.
Qed.

Lemma erase_run d ins : forall s,
  WithoutCounterPrev.run d (erase s) ins = PDMCaptureSubtarget.run d s ins.
Proof.
  induction ins as [| i ins IH]; intros s; cbn; [reflexivity |].
  rewrite erase_step.
  destruct (PDMCaptureSubtarget.step d s i) as [s' o]. cbn. now rewrite IH.
Qed.

(** C9. The subtarget without the register [counter_prev] and its latch
    in [REPORT] drives the queue exactly as the subtarget as written: for
    every circuit and every input sequence the port values of every cycle,
    and so the byte stream written to the queue, are the same. *)
Theorem counter_prev_is_unobservable
    (d : PDMCaptureSubtarget.design) (ins : list PDMCaptureSubtarget.inputs) :
  WithoutCounterPrev.run d WithoutCounterPrev.reset ins
  = PDMCaptureSubtarget.run d PDMCaptureSubtarget.reset ins
  /\ WithoutCounterPrev.queue_bytes d ins
     = PDMCaptureSubtarget.queue_bytes d ins.
Proof.
  assert (H : WithoutCounterPrev.run d WithoutCounterPrev.reset ins
              = PDMCaptureSubtarget.run d PDMCaptureSubtarget.reset ins)
    by apply (erase_run d ins PDMCaptureSubtarget.reset).
  split; [exact H |].
  unfold WithoutCounterPrev.queue_bytes, PDMCaptureSubtarget.queue_bytes.
  now rewrite H.
Qed.

(** *** One period of latency *)

Section LatencyFacts.

Import PDMCaptureSubtarget.

Lemma final_sampler d ins : forall s,
  sampler (final d s ins) = sampler_final d (sampler s) ins.
Proof.
  induction ins as [| i ins IH]; intros s; cbn; [reflexivity |].
  rewrite IH. f_equal. unfold step.
  destruct (FIFOStreamer.step _ _ _). reflexivity.
Qed.

Lemma sampler_final_snoc d pre x : forall r,
  sampler_final d r (pre ++ [x]) = sampler_step d (sampler_final d r pre) x.
Proof.
  induction pre as [| i pre IH]; intros r; cbn; [reflexivity | apply IH].
Qed.

Lemma phase_after_snoc gap pre x : forall p,
  phase_after gap p (pre ++ [x]) =
    match phase_after gap p pre with
    | Some p' => clock_step gap p' x
    | None => None
    end.
Proof.
  induction pre as [| i pre IH]; intros p; cbn.
  - now destruct (clock_step gap p x).
  - destruct (clock_step gap p i); [apply IH | reflexivity].
Qed.

Lemma rises_snoc pre x :
  rises (pre ++ [x]) = rises pre ++ (if stb_r x then [pins_i x] else []).
Proof.
  unfold rises. rewrite filter_app, map_app. cbn.
  now destruct (stb_r x).
Qed.

Lemma falls_snoc pre x :
  falls (pre ++ [x]) = falls pre ++ (if stb_f x then [pins_i x] else []).
Proof.
  unfold falls. rewrite filter_app, map_app. cbn.
  now destruct (stb_f x).
Qed.

(** A new rising sample leaves the last complete period as it is. *)
Lemma previous_period_word_rise pre x :
  stb_r x = true -> stb_f x = false ->
  List.length (rises pre) = List.length (falls pre) ->
  previous_period_word (pre ++ [x]) = previous_period_word pre.
Proof.
  intros Hr Hf Hlen. unfold previous_period_word.
  rewrite rises_snoc, falls_snoc, Hr, Hf, app_nil_r.
  destruct (List.length (falls pre)) as [| k] eqn:E; [reflexivity |].
  rewrite app_nth1 by lia. reflexivity.
Qed.

Lemma previous_period_word_idle pre x :
  stb_r x = false -> stb_f x = false ->
  previous_period_word (pre ++ [x]) = previous_period_word pre.
Proof.
  intros Hr Hf. unfold previous_period_word.
  now rewrite rises_snoc, falls_snoc, Hr, Hf, !app_nil_r.
Qed.

(** A falling sample completes the period its rising sample opened. *)
Lemma previous_period_word_fall pre x :
  stb_r x = false -> stb_f x = true ->
  List.length (rises pre) = S (List.length (falls pre)) ->
  previous_period_word (pre ++ [x])
  = interleave (nth (List.length (falls pre)) (rises pre) 0) (pins_i x).
Proof.
  intros Hr Hf Hlen. unfold previous_period_word.
  rewrite rises_snoc, falls_snoc, Hr, Hf, app_nil_r.
  rewrite length_app. cbn [List.length].
  replace (List.length (falls pre) + 1)%nat
    with (S (List.length (falls pre))) by lia.
  rewrite app_nth2 by lia. rewrite Nat.sub_diag. reflexivity.
Qed.

Lemma channels_of_reset : channels_of 0 = 0.
Proof. reflexivity. Qed.

Lemma sampler_tracks_clock pre : forall p,
  phase_after true AfterFall pre = Some p ->
  sampler_tracks p (sampler_final design3 (sampler reset) pre) pre.
Proof.
  induction pre as [| x pre IH] using rev_ind; intros p Hp.
  - cbn in Hp. injection Hp as <-. cbn. repeat split.
  - rewrite phase_after_snoc in Hp.
    destruct (phase_after true AfterFall pre) as [q |] eqn:Eq;
      [| discriminate].
    specialize (IH q eq_refl).
    rewrite sampler_final_snoc.
    set (r := sampler_final design3 (sampler reset) pre) in *.
    destruct q; cbn in Hp, IH.
    + (* the cycle after a falling strobe: [REPORT] *)
      destruct IH as (Hfsm & Hlen & Hch).
      destruct (stb_f x) eqn:Ef; [discriminate |].
      destruct (stb_r x) eqn:Er; [discriminate |].
      injection Hp as <-. cbn.
      unfold sampler_step. rewrite Hfsm. cbn [fsm channels].
      rewrite rises_snoc, falls_snoc, Er, Ef, !app_nil_r.
      repeat split; [assumption |].
      rewrite previous_period_word_idle by assumption. exact Hch.
    + (* waiting for the rising strobe *)
      destruct IH as (Hfsm & Hlen & Hch).
      destruct (stb_f x) eqn:Ef; [discriminate |].
      destruct (stb_r x) eqn:Er; injection Hp as <-; cbn;
        unfold sampler_step; rewrite Hfsm, Er; cbn [fsm channels pins_current].
      * rewrite previous_period_word_rise by assumption.
        rewrite rises_snoc, falls_snoc, Er, Ef, app_nil_r.
        rewrite length_app. cbn [List.length].
        repeat split; [lia | assumption |].
        intros i Hi. rewrite <- Hlen, nth_middle.
        change (n design3) with 3. now apply rising_half.
      * rewrite previous_period_word_idle by assumption.
        rewrite rises_snoc, falls_snoc, Er, Ef, !app_nil_r.
        repeat split; assumption.
    + (* waiting for the falling strobe *)
      destruct IH as (Hfsm & Hlen & Hch & Hlow).
      destruct (stb_r x) eqn:Er; [discriminate |].
      destruct (stb_f x) eqn:Ef; injection Hp as <-; cbn;
        unfold sampler_step; rewrite Hfsm, Ef; cbn [fsm channels pins_current].
      * rewrite previous_period_word_fall by assumption.
        rewrite rises_snoc, falls_snoc, Er, Ef, app_nil_r.
        rewrite length_app. cbn [List.length].
        repeat split; [lia |].
        change (n design3) with 3. now apply channels_of_halves.
      * rewrite previous_period_word_idle by assumption.
        rewrite rises_snoc, falls_snoc, Er, Ef, !app_nil_r.
        repeat split; assumption.
Qed.

End LatencyFacts.

(** C5, the claim as written fails. The strobes below alternate and never
    coincide, with a rising strobe in the very cycle after each falling
    one, as a bit clock of two cycles per period has them. The sampler is
    in [REPORT] in that cycle and misses the rising strobe, so at the third
    falling strobe the word in front of the streamer is still that of the
    first period (63), not that of the period just before (0). *)
Lemma rising_strobe_in_report_cycle_is_missed :
  let cyc r f p := {| PDMCaptureSubtarget.stb_r := r;
                      PDMCaptureSubtarget.stb_f := f;
                      PDMCaptureSubtarget.pins_i := p;
                      PDMCaptureSubtarget.w_rdy := true |} in
  let pre := [cyc false false 0; cyc true false 7; cyc false true 7;
              cyc true false 0; cyc false true 0; cyc true false 0] in
  let x := cyc false true 0 in
  alternating (pre ++ [x]) = true
  /\ PDMCaptureSubtarget.stb_f x = true
  /\ rises pre = [7; 0; 0] /\ falls pre = [7; 0]
  /\ previous_period_word pre = 0
  /\ presented_word pre = 63
  /\ presented_word pre <> previous_period_word pre.
Proof. cbv. repeat split. discriminate. Qed.

(** C5, amended. Let the strobes alternate, rising first, never coincide,
    and leave the first cycle after reset and the cycle after each falling
    strobe without a rising strobe (the cycle [REPORT] takes). Then for
    every sequence of pin values, in every cycle [x] with a falling strobe
    the subtarget strobes the streamer with the word of the previous full
    bit-clock period: for each channel [i], bit [2 * i] is the sample taken
    at that period's rising strobe and bit [2 * i + 1] the sample taken at
    its falling strobe. The word lags the capture by one period, and at the
    first falling strobe, before any period is complete, it is 0. *)
Theorem presented_word_lags_one_period
    (pre : list PDMCaptureSubtarget.inputs) (x : PDMCaptureSubtarget.inputs) :
  well_clocked (pre ++ [x]) = true ->
  PDMCaptureSubtarget.stb_f x = true ->
  let s := PDMCaptureSubtarget.final design3 PDMCaptureSubtarget.reset pre in
  FIFOStreamer.strobe (PDMCaptureSubtarget.streamer_inputs s x) = true
  /\ FIFOStreamer.data (PDMCaptureSubtarget.streamer_inputs s x)
     = presented_word pre
  /\ presented_word pre = previous_period_word pre
  /\ (falls pre = [] -> presented_word pre = 0)
  /\ (forall k, List.length (falls pre) = S k ->
      forall i, 0 <= i < 3 ->
        Z.testbit (presented_word pre) (2 * i)
        = Z.testbit (nth k (rises pre) 0) i
        /\ Z.testbit (presented_word pre) (2 * i + 1)
           = Z.testbit (nth k (falls pre) 0) i).
Proof.
  intros Hclk Hf s.
  assert (Hword : presented_word pre = previous_period_word pre).
  { unfold well_clocked, clocked in Hclk. rewrite phase_after_snoc in Hclk.
    destruct (phase_after true AfterFall pre) as [p |] eqn:Ep;
      [| discriminate].
    pose proof (sampler_tracks_clock pre p Ep) as Hinv.
    unfold presented_word. rewrite final_sampler.
    destruct p; cbn in Hclk; rewrite Hf in Hclk; cbn in Hclk;
      try discriminate.
    destruct Hinv as (_ & _ & Hch & _). exact Hch. }
  split; [exact Hf |]. split; [reflexivity |]. split; [exact Hword |].
  split.
  - intros Hnone. rewrite Hword. unfold previous_period_word.
    now rewrite Hnone.
  - intros k Hk i Hi. rewrite Hword. unfold previous_period_word.
    rewrite Hk. now apply interleave_testbit.
Qed.

Lemma presented_word_lags_one_period_witness :
  let cyc r f p := {| PDMCaptureSubtarget.stb_r := r;
                      PDMCaptureSubtarget.stb_f := f;
                      PDMCaptureSubtarget.pins_i := p;
                      PDMCaptureSubtarget.w_rdy := true |} in
  let pre := [cyc false false 0; cyc true false 5; cyc false false 1;
              cyc false true 2; cyc false false 0; cyc true false 7] in
  presented_word pre = previous_period_word pre.
Proof.
  intros cyc pre.
  exact (proj1 (proj2 (proj2
    (presented_word_lags_one_period pre (cyc false true 7) eq_refl eq_refl)))).
Defined.

(** ** AudioPDMApplet.interact *)

Section HostLoopFacts.

Import AudioPDMApplet.

Lemma len_zero data : (len data =? 0) = true <-> data = [].
Proof.
  unfold len. rewrite Z.eqb_eq. destruct data; cbn; [tauto |].
  split; [lia | discriminate].
Qed.

Lemma contains_0xff_nonempty data : contains_0xff data = true -> data <> [].
Proof. intros H ->. discriminate. Qed.

(** *** With a disk that takes every write *)

Variable threshold : Z.

Lemma loop_healthy transport : forall st,
  overrun st = false ->
  let r := loop healthy threshold transport st in
  fst r = loop_exit_of transport
  /\ contents (f (snd r)) ++ buffer (snd r)
     = contents (f st) ++ buffer st ++ accepted transport
  /\ close_calls (f (snd r)) = close_calls (f st)
  /\ log (snd r)
     = log st ++ match loop_exit_of transport with
                 | LoopEnd => [overrun_entry]
                 | _ => []
                 end
  /\ overrun (snd r) = match loop_exit_of transport with
                       | LoopEnd => true
                       | _ => false
                       end.
Proof.
  induction transport as [| ev rest IH]; intros st Hov; cbn; rewrite Hov.
  - cbn. rewrite !app_nil_r. repeat split. assumption.
  - destruct ev as [data | e].
    + destruct (len data =? 0) eqn:El.
      * apply len_zero in El. subst data. cbn. now apply IH.
      * destruct (contains_0xff data) eqn:Ec.
        -- cbn. rewrite !app_nil_r. repeat split.
        -- cbn [set_buffer set_total_read buffer f log total_read overrun].
           destruct (threshold <? len (buffer st ++ data)).
           ++ cbn.
              match goal with
              | |- context [loop healthy threshold rest ?s] =>
                  destruct (IH s Hov) as (H1 & H2 & H3 & H4 & H5)
              end.
              cbn in H2, H3, H4.
              repeat split; try assumption.
              rewrite H2. now rewrite <- !app_assoc.
           ++ match goal with
              | |- context [loop healthy threshold rest ?s] =>
                  destruct (IH s Hov) as (H1 & H2 & H3 & H4 & H5)
              end.
              cbn in H2, H3, H4.
              repeat split; try assumption.
              rewrite H2. now rewrite <- !app_assoc.
    + cbn. rewrite !app_nil_r. repeat split. assumption.
Qed.

Lemma clean_prefix before tail :
  clean before = true ->
  loop_exit_of (before ++ tail) = loop_exit_of tail
  /\ accepted (before ++ tail) = chunk_bytes before ++ accepted tail.
Proof.
  induction before as [| ev before IH]; intros Hc; [now split |].
  cbn in Hc. apply andb_true_iff in Hc as [Hev Hc].
  destruct ev as [data | e]; [| discriminate].
  apply negb_true_iff in Hev. cbn. rewrite Hev.
  destruct (IH Hc) as [-> ->]. split; [reflexivity |].
  unfold chunk_bytes. cbn. now rewrite app_assoc.
Qed.

(** The run of [interact] when the loop ends by an overrun. *)
Lemma interact_overrun transport :
  loop_exit_of transport = LoopEnd ->
  let r := interact_with threshold healthy transport in
  fst r = Returned
  /\ contents (f (snd r)) = accepted transport
  /\ buffer (snd r) = []
  /\ close_calls (f (snd r)) = 1%nat
  /\ log (snd r) = [(INFO, "starting capture"%string); overrun_entry].
Proof.
  intros Hexit. unfold interact_with.
  match goal with
  | |- context [loop healthy threshold transport ?s] =>
      pose proof (loop_healthy transport s eq_refl) as H; cbn zeta in H;
      destruct (loop healthy threshold transport s) as [ex st]
  end.
  cbn [fst snd] in H. destruct H as (H1 & H2 & H3 & H4 & H5).
  rewrite Hexit in *. subst ex. cbn in H2, H3, H4.
  unfold final_flush.
  destruct (0 <? len (buffer st)) eqn:Eb.
  - cbn. repeat split; try assumption. now rewrite H3.
  - assert (Hnil : buffer st = []).
    { unfold len in Eb. apply Z.ltb_ge in Eb.
      destruct (buffer st); [reflexivity | cbn in Eb; lia]. }
    cbn. rewrite Hnil, app_nil_r in H2.
    repeat split; try assumption. now rewrite H3.
Qed.



(** One turn of the loop on a chunk with the sentinel, for any disk:
    neither the buffer nor the file changes. *)
Lemma loop_sentinel_chunk (d : disk) data rest st :
  overrun st = false -> contains_0xff data = true ->
  loop d threshold (Chunk data :: rest) st
  = (LoopEnd,
     set_overrun
       (add_log (set_total_read st (total_read st + len data))
                ERROR "FIFO overrun, shutting down") true).
Proof.
  intros Hov Hc.
  assert (El : (len data =? 0) = false).
  { destruct (len data =? 0) eqn:E; [| reflexivity].
    apply len_zero in E. subst data. discriminate. }
  cbn. now rewrite Hov, El, Hc.
Qed.


End HostLoopFacts.

(** *** The chunk with the sentinel *)

(** C1, the claim as written fails: for the transport of the example the
    file holds 0x01 0x02 only. The byte 0x03 that precedes the sentinel in
    its chunk is dropped with the rest of that chunk. *)
Lemma bytes_before_sentinel_are_not_written :
  let r := AudioPDMApplet.interact AudioPDMApplet.healthy example_transport in
  fst r = AudioPDMApplet.Returned
  /\ AudioPDMApplet.contents (AudioPDMApplet.f (snd r)) = [x01; x02]
  /\ AudioPDMApplet.contents (AudioPDMApplet.f (snd r)) <> [x01; x02; x03]
  /\ In overrun_entry (AudioPDMApplet.log (snd r)).
Proof.
  vm_compute. repeat split; [discriminate | right; left; reflexivity].
Qed.

(** C1, amended. For the transport of the example the consumer writes
    exactly 0x01 0x02 to the file, logs the overrun and returns; it writes
    none of 0x03, 0x04 and 0x05. In general, when the reads before it
    return chunks without the sentinel and every write succeeds, a chunk
    that holds the sentinel anywhere ends the loop and no byte of that
    chunk, before or after the sentinel, and no later chunk is written: the
    file holds the bytes of the chunks before it. The turn of the loop on
    such a chunk changes neither the buffer nor the file, whatever the
    disk. *)
Theorem sentinel_chunk_is_dropped_whole
    (before after : list AudioPDMApplet.read_event) (data : list byte) :
  clean before = true ->
  AudioPDMApplet.contains_0xff data = true ->
  let r := AudioPDMApplet.interact AudioPDMApplet.healthy
             (before ++ AudioPDMApplet.Chunk data :: after) in
  let ex := AudioPDMApplet.interact AudioPDMApplet.healthy example_transport in
  (fst r = AudioPDMApplet.Returned
   /\ AudioPDMApplet.contents (AudioPDMApplet.f (snd r)) = chunk_bytes before
   /\ AudioPDMApplet.buffer (snd r) = []
   /\ AudioPDMApplet.log (snd r)
      = [(AudioPDMApplet.INFO, "starting capture"%string); overrun_entry])
  /\ (fst ex = AudioPDMApplet.Returned
      /\ AudioPDMApplet.contents (AudioPDMApplet.f (snd ex)) = [x01; x02]
      /\ AudioPDMApplet.log (snd ex)
         = [(AudioPDMApplet.INFO, "starting capture"%string); overrun_entry])
  /\ (forall d rest st,
        AudioPDMApplet.overrun st = false ->
        let r1 := AudioPDMApplet.loop d AudioPDMApplet.flush_threshold
                    (AudioPDMApplet.Chunk data :: rest) st in
        fst r1 = AudioPDMApplet.LoopEnd
        /\ AudioPDMApplet.buffer (snd r1) = AudioPDMApplet.buffer st
        /\ AudioPDMApplet.f (snd r1) = AudioPDMApplet.f st).
Proof.
  intros Hclean Hc r ex.
  destruct (clean_prefix before (AudioPDMApplet.Chunk data :: after) Hclean)
    as [Hexit Hacc].
  cbn in Hexit, Hacc. rewrite Hc in Hexit, Hacc. rewrite app_nil_r in Hacc.
  destruct (interact_overrun AudioPDMApplet.flush_threshold _ Hexit)
    as (H1 & H2 & H3 & _ & H5).
  split; [| split].
  - unfold r, AudioPDMApplet.interact. rewrite H1, H2, H3, H5, Hacc.
    repeat split.
  - vm_compute. repeat split.
  - intros d rest st Hov r1. unfold r1.
    rewrite (loop_sentinel_chunk AudioPDMApplet.flush_threshold d data rest st
               Hov Hc).
    repeat split.
Qed.

Lemma sentinel_chunk_is_dropped_whole_witness :
  AudioPDMApplet.contents
    (AudioPDMApplet.f
       (snd (AudioPDMApplet.interact AudioPDMApplet.healthy
               ([AudioPDMApplet.Chunk []; AudioPDMApplet.Chunk [x01; x02]]
                ++ AudioPDMApplet.Chunk [x03; xff; x04]
                :: [AudioPDMApplet.Chunk [x05]]))))
  = chunk_bytes [AudioPDMApplet.Chunk []; AudioPDMApplet.Chunk [x01; x02]].
Proof.
  exact (proj1 (proj2 (proj1
    (sentinel_chunk_is_dropped_whole
       [AudioPDMApplet.Chunk []; AudioPDMApplet.Chunk [x01; x02]]
       [AudioPDMApplet.Chunk [x05]] [x03; xff; x04] eq_refl eq_refl)))).
Defined.

(** *** Flushing the buffer *)




(** The flush at the threshold on a run: a first chunk of 1 MiB and one
    byte is written whole as soon as it is appended, the two that follow
    wait in the buffer for the flush at the overrun. *)
Example flush_at_one_mebibyte :
  let big := repeat x01 (Z.to_nat (1024 * 1024 + 1)) in
  let r := AudioPDMApplet.interact AudioPDMApplet.healthy
             [ AudioPDMApplet.Chunk big; AudioPDMApplet.Chunk [x02];
               AudioPDMApplet.Chunk [x03]; AudioPDMApplet.Chunk [xff] ] in
  fst r = AudioPDMApplet.Returned
  /\ AudioPDMApplet.write_calls (AudioPDMApplet.f (snd r)) = 2%nat
  /\ AudioPDMApplet.len (AudioPDMApplet.contents (AudioPDMApplet.f (snd r)))
     = 1024 * 1024 + 3
  /\ skipn (Z.to_nat (1024 * 1024 + 1))
           (AudioPDMApplet.contents (AudioPDMApplet.f (snd r))) = [x02; x03].
Proof. vm_compute. repeat split. Qed.

(** *** Closing the file, and failures of [write] *)

Section ExitPathFacts.

Import AudioPDMApplet.

Variable d : disk.
Variable threshold : Z.

Lemma file_write_cases fl b :
  let r := file_write d fl b in
  write_calls (fst r) = S (write_calls fl)
  /\ close_calls (fst r) = close_calls fl
  /\ ((d (write_calls fl) = WriteOk /\ snd r = None)
      \/ (exists partial msg,
            d (write_calls fl) = WriteFails partial msg
            /\ snd r = Some (OSError msg))).
Proof.
  unfold file_write. destruct (d (write_calls fl)) as [| partial msg]; cbn.
  - repeat split. now left.
  - repeat split. right. now exists partial, msg.
Qed.

Lemma writes_ok_next n : writes_ok d n -> d n = WriteOk -> writes_ok d (S n).
Proof.
  intros Hok Hn k Hk. destruct (Nat.eq_dec k n) as [-> | Hne];
    [assumption | apply Hok; lia].
Qed.

Lemma try_body_sound_later ev transport raised st :
  try_body_sound d transport raised st ->
  try_body_sound d (ev :: transport) raised st.
Proof.
  intros [[Hok Hin] | Hfail]; [left | right; assumption].
  split; [assumption |]. intros e He. right. now apply Hin.
Qed.

Lemma loop_sound transport : forall st,
  writes_ok d (write_calls (f st)) ->
  let r := loop d threshold transport st in
  close_calls (f (snd r)) = close_calls (f st)
  /\ try_body_sound d transport (raised_of (fst r)) (snd r).
Proof.
  induction transport as [| ev rest IH]; intros st Hok; cbn.
  - destruct (overrun st); cbn; (split; [reflexivity |]);
      left; (split; [assumption | discriminate]).
  - destruct (overrun st); cbn.
    { split; [reflexivity |]. left. split; [assumption | discriminate]. }
    destruct ev as [data | e].
    + destruct (len data =? 0).
      { destruct (IH st Hok) as [Hc Hs]. split; [assumption |].
        now apply try_body_sound_later. }
      destruct (contains_0xff data).
      { cbn. split; [reflexivity |]. left.
        split; [assumption | discriminate]. }
      cbn [set_buffer set_total_read buffer f].
      destruct (threshold <? len (buffer st ++ data)).
      * destruct (file_write_cases (f st) (buffer st ++ data))
          as (Hw & Hcl & Hres).
        destruct (file_write d (f st) (buffer st ++ data)) as [f' res].
        cbn [fst snd] in Hw, Hcl, Hres.
        destruct Hres as [[Hd ->] | (partial & msg & Hd & ->)].
        -- match goal with
           | |- context [loop d threshold rest ?s] =>
               destruct (IH s) as [Hc Hs]
           end.
           { cbn. rewrite Hw. now apply writes_ok_next. }
           cbn in Hc. split; [congruence |].
           now apply try_body_sound_later.
        -- cbn. split; [assumption |]. right.
           exists (write_calls (f st)), msg.
           repeat split; try assumption. now exists partial.
      * match goal with
        | |- context [loop d threshold rest ?s] =>
            destruct (IH s) as [Hc Hs]
        end.
        { exact Hok. }
        cbn in Hc. split; [assumption |].
        now apply try_body_sound_later.
    + cbn. split; [reflexivity |]. left. split; [assumption |].
      intros e' He'. injection He' as <-. now left.
Qed.

Lemma final_flush_sound transport st :
  writes_ok d (write_calls (f st)) ->
  let r := final_flush d st in
  close_calls (f (snd r)) = close_calls (f st)
  /\ try_body_sound d transport (fst r) (snd r).
Proof.
  intros Hok. unfold final_flush.
  destruct (0 <? len (buffer st)).
  - destruct (file_write_cases (f st) (buffer st)) as (Hw & Hcl & Hres).
    destruct (file_write d (f st) (buffer st)) as [f' res].
    cbn [fst snd] in Hw, Hcl, Hres.
    destruct Hres as [[Hd ->] | (partial & msg & Hd & ->)]; cbn.
    + split; [assumption |]. left. cbn. rewrite Hw.
      split; [now apply writes_ok_next | discriminate].
    + split; [assumption |]. right.
      exists (write_calls (f st)), msg.
      repeat split; try assumption. now exists partial.
  - cbn. split; [reflexivity |]. left. split; [assumption | discriminate].
Qed.

(** What the [except] and [finally] clauses make of a sound body. *)
Lemma handlers_sound transport raised st :
  try_body_sound d transport raised st ->
  close_calls (f st) = 0%nat ->
  let r := handlers d raised st in
  fst r <> Suspended
  /\ close_calls (f (snd r)) = 1%nat
  /\ (forall e, fst r = Propagated e ->
        (exists lost msg, on_close d = CloseFails lost msg /\ e = OSError msg)
        \/ (is_Exception e = false /\ In (ReadRaises e) transport))
  /\ (forall k partial msg,
        (k < write_calls (f (snd r)))%nat ->
        d k = WriteFails partial msg ->
        In (write_error_entry msg) (log (snd r))
        /\ write_calls (f (snd r)) = S k
        /\ (on_close d = CloseOk -> fst r = Returned)).
Proof.
  intros Hsound Hclosed. unfold handlers, file_close.
  destruct Hsound as [[Hok Hin] | (n & msg & Hcalls & [Hbefore [p Hn]] & ->)].
  - assert (Hnofail : forall k partial msg,
              (k < write_calls (f st))%nat ->
              d k = WriteFails partial msg -> False).
    { intros k partial msg Hk Hd. rewrite (Hok k Hk) in Hd. discriminate. }
    destruct raised as [e |]; [destruct (is_Exception e) eqn:He |];
      destruct (on_close d) as [| lost cmsg] eqn:Ec; cbn; rewrite Hclosed;
      (split; [discriminate |]); (split; [reflexivity |]);
      (split;
       [ intros e' He'; try discriminate; injection He' as <-;
         first [ left; now exists lost, cmsg
               | right; split; [assumption | now apply Hin] ]
       | intros k partial msg Hk Hd; exfalso;
         now apply (Hnofail k partial msg) ]).
  - assert (Hlast : forall k partial msg',
              (k < S n)%nat -> d k = WriteFails partial msg' ->
              k = n /\ msg' = msg).
    { intros k partial msg' Hk Hd.
      destruct (Nat.eq_dec k n) as [-> | Hne].
      - rewrite Hn in Hd. injection Hd as _ <-. now split.
      - rewrite (Hbefore k) in Hd by lia. discriminate. }
    destruct (on_close d) as [| lost cmsg] eqn:Ec; cbn; rewrite Hclosed, Hcalls;
      (split; [discriminate |]); (split; [reflexivity |]);
      (split;
       [ intros e' He'; try discriminate; injection He' as <-;
         left; now exists lost, cmsg
       | intros k partial msg' Hk Hd;
         destruct (Hlast k partial msg' Hk Hd) as [-> ->];
         split; [apply in_or_app; right; now left |];
         split; [reflexivity |]; intros Hc; try reflexivity; discriminate ]).
Qed.

End ExitPathFacts.

Lemma loop_exit_of_clean transport :
  loop_exit_of transport = AudioPDMApplet.LoopAwait <-> clean transport = true.
Proof.
  induction transport as [| ev rest IH]; cbn; [now split |].
  destruct ev as [data | e]; [| split; discriminate].
  destruct (AudioPDMApplet.contains_0xff data); cbn; [split; discriminate |].
  exact IH.
Qed.

(** C7, the claim as written fails, in two ways. On a full disk the last
    write, small enough to stay in the file object's own buffer, is taken
    without error and the [OSError] comes from [f.close()] in the [finally]
    clause: it is not logged and it leaves [interact], and the byte is not
    in the file. And there is no exit at the end of the stream: when the
    transport has delivered its last chunk the call is suspended in the
    next read and the file has not been closed. *)
Lemma close_error_escapes_and_stream_end_leaves_file_open :
  let full : AudioPDMApplet.disk :=
    {| AudioPDMApplet.on_write := fun _ => AudioPDMApplet.WriteOk;
       AudioPDMApplet.on_close :=
         AudioPDMApplet.CloseFails 1 "No space left on device" |} in
  let r := AudioPDMApplet.interact full
             [AudioPDMApplet.Chunk [x01]; AudioPDMApplet.Chunk [xff]] in
  let r' := AudioPDMApplet.interact AudioPDMApplet.healthy
              [AudioPDMApplet.Chunk [x01]; AudioPDMApplet.Chunk [x02]] in
  (fst r = AudioPDMApplet.Propagated
             (AudioPDMApplet.OSError "No space left on device")
   /\ AudioPDMApplet.log (snd r)
      = [(AudioPDMApplet.INFO, "starting capture"%string); overrun_entry]
   /\ AudioPDMApplet.contents (AudioPDMApplet.f (snd r)) = [])
  /\ (fst r' = AudioPDMApplet.Suspended
      /\ AudioPDMApplet.close_calls (AudioPDMApplet.f (snd r')) = 0%nat).
Proof. vm_compute. repeat split. Qed.

(** C7, amended. For every transport and every disk: on each path on which
    [interact] finishes (the overrun, an exception of a read, a failed
    [write] in the loop or in the last flush) [f.close()] is called exactly
    once on the handle that [interact] opened; there is no exit at the end
    of the stream: a call that has only read chunks without the sentinel is
    suspended in the next read, with the file not closed. An exception that
    [f.write()] raises is caught and logged, no further write is attempted,
    and [interact] returns if [f.close()] does not raise. An exception that
    leaves [interact] is never one that [write] raised: it was raised by
    [f.close()], or by a read and is no [Exception]. *)
Theorem file_closed_once_and_write_errors_logged
    (d : AudioPDMApplet.disk) (transport : list AudioPDMApplet.read_event) :
  let r := AudioPDMApplet.interact d transport in
  let fl := AudioPDMApplet.f (snd r) in
  (fst r = AudioPDMApplet.Suspended -> AudioPDMApplet.close_calls fl = 0%nat)
  /\ (fst r <> AudioPDMApplet.Suspended ->
      AudioPDMApplet.close_calls fl = 1%nat)
  /\ (forall e, fst r = AudioPDMApplet.Propagated e ->
        (exists lost msg,
           AudioPDMApplet.on_close d = AudioPDMApplet.CloseFails lost msg
           /\ e = AudioPDMApplet.OSError msg)
        \/ (AudioPDMApplet.is_Exception e = false
            /\ In (AudioPDMApplet.ReadRaises e) transport))
  /\ (forall k partial msg,
        (k < AudioPDMApplet.write_calls fl)%nat ->
        d k = AudioPDMApplet.WriteFails partial msg ->
        In (write_error_entry msg) (AudioPDMApplet.log (snd r))
        /\ AudioPDMApplet.write_calls fl = S k
        /\ (AudioPDMApplet.on_close d = AudioPDMApplet.CloseOk ->
            fst r = AudioPDMApplet.Returned))
  /\ (clean transport = true ->
      let r' := AudioPDMApplet.interact AudioPDMApplet.healthy transport in
      fst r' = AudioPDMApplet.Suspended
      /\ AudioPDMApplet.close_calls (AudioPDMApplet.f (snd r')) = 0%nat).
Proof.
  assert (Hend : clean transport = true ->
            let r' := AudioPDMApplet.interact AudioPDMApplet.healthy transport in
            fst r' = AudioPDMApplet.Suspended
            /\ AudioPDMApplet.close_calls (AudioPDMApplet.f (snd r')) = 0%nat).
  { intros Hclean r'. unfold r', AudioPDMApplet.interact,
      AudioPDMApplet.interact_with.
    match goal with
    | |- context [AudioPDMApplet.loop _ ?t transport ?s] =>
        pose proof (loop_healthy t transport s eq_refl) as H; cbn zeta in H;
        destruct (AudioPDMApplet.loop AudioPDMApplet.healthy t transport s)
          as [ex st]
    end.
    cbn [fst snd] in H. destruct H as (Hex & _ & Hcl & _).
    rewrite (proj2 (loop_exit_of_clean transport) Hclean) in Hex. subst ex.
    split; [reflexivity | exact Hcl]. }
  unfold AudioPDMApplet.interact, AudioPDMApplet.interact_with in *.
  match goal with
  | |- context [AudioPDMApplet.loop d ?t transport ?s] =>
      assert (Hok0 : writes_ok d (AudioPDMApplet.write_calls (AudioPDMApplet.f s)))
        by (intros k Hk; cbn in Hk; lia);
      destruct (loop_sound d t transport s Hok0) as [Hcl Hs];
      destruct (AudioPDMApplet.loop d t transport s) as [ex st]
  end.
  cbn [fst snd] in Hcl, Hs. cbn in Hcl.
  destruct ex as [| e |].
  - (* the loop ended: last flush, then the handlers *)
    assert (Hok : writes_ok d (AudioPDMApplet.write_calls (AudioPDMApplet.f st))).
    { destruct Hs as [[Hok _] | (n & msg & _ & _ & Habs)];
        [assumption | discriminate]. }
    destruct (final_flush_sound d transport st Hok) as [Hcl' Hs'].
    destruct (AudioPDMApplet.final_flush d st) as [raised st'].
    cbn [fst snd] in Hcl', Hs'.
    destruct (handlers_sound d transport raised st' Hs' ltac:(congruence))
      as (H1 & H2 & H3 & H4).
    cbn zeta. split; [intros Habs; contradiction |].
    split; [intros _; exact H2 |]. split; [exact H3 |].
    split; [exact H4 | exact Hend].
  - destruct (handlers_sound d transport (Some e) st Hs Hcl)
      as (H1 & H2 & H3 & H4).
    cbn zeta. split; [intros Habs; contradiction |].
    split; [intros _; exact H2 |]. split; [exact H3 |].
    split; [exact H4 | exact Hend].
  - (* suspended in a read *)
    cbn. destruct Hs as [[Hok _] | (n & msg & _ & _ & Habs)];
      [| discriminate].
    split; [intros _; exact Hcl |].
    split; [intros Habs; now contradiction Habs |].
    split; [discriminate |].
    split; [| exact Hend].
    intros k partial msg Hk Hd. rewrite (Hok k Hk) in Hd. discriminate.
Qed.

Lemma file_closed_once_and_write_errors_logged_witness :
  let d : AudioPDMApplet.disk :=
    {| AudioPDMApplet.on_write :=
         fun _ => AudioPDMApplet.WriteFails 0 "No space left on device";
       AudioPDMApplet.on_close := AudioPDMApplet.CloseOk |} in
  let r := AudioPDMApplet.interact d
             [AudioPDMApplet.Chunk [x01]; AudioPDMApplet.Chunk [xff]] in
  In (write_error_entry "No space left on device")
     (AudioPDMApplet.log (snd r))
  /\ AudioPDMApplet.write_calls (AudioPDMApplet.f (snd r)) = 1%nat
  /\ fst r = AudioPDMApplet.Returned.
Proof.
  intros d r.
  destruct (proj1 (proj2 (proj2 (proj2
    (file_closed_once_and_write_errors_logged d
       [AudioPDMApplet.Chunk [x01]; AudioPDMApplet.Chunk [xff]]))))
    0%nat 0%nat "No space left on device"%string
    (Nat.lt_succ_diag_r 0) eq_refl) as (Hlog & Hcalls & Hret).
  exact (conj Hlog (conj Hcalls (Hret eq_refl))).
Defined.

(* ------------------------------------------------------------------ *)
(** * Further properties *)

(** ** FIFOStreamer *)

Section StreamerRateFacts.

Import FIFOStreamer.

Variable width : Z.

Lemma write_rate_from st ins :
  (2 * List.length (writes (run width st ins)) <= List.length ins + slack st)%nat.
Proof.
  revert st. induction ins as [| i ins IH]; intros st; cbn [run List.length].
  - cbn. lia.
  - destruct st; cbn [step]; destruct (strobe i); destruct (w_rdy i);
      cbn [writes w_en no_write List.length slack];
      match goal with
      | |- context [run width ?s ins] =>
          specialize (IH s); cbn [slack] in IH; lia
      end.
Qed.

Lemma run_constant_length {A B} (l : list A) (l' : list B) (o : fifo_port) :
  List.length l = List.length l' ->
  map (fun _ => o) l = map (fun _ => o) l'.
Proof.
  revert l'. induction l as [| a l IH]; intros [| b l'] H; cbn in *;
    try discriminate; [reflexivity |].
  f_equal. apply IH. lia.
Qed.

Hypothesis width_ok : 0 < width <= 7.

Lemma sentinels_from st ins :
  (count_sentinels (writes (run width st ins))
   <= count_full_strobes ins + owed st)%nat.
Proof.
  revert st. unfold count_sentinels, count_full_strobes.
  induction ins as [| i ins IH]; intros st; cbn [run filter]; [cbn; lia |].
  destruct st; cbn [step]; destruct (strobe i); destruct (w_rdy i);
    cbn [writes w_en w_data no_write filter strobe FIFOStreamer.w_rdy andb negb
         List.length owed].
  - (* a data byte *)
    destruct (data_byte_range width (data i) width_ok) as (_ & _ & Hmax).
    rewrite count_occ_cons_neq by (unfold sentinel; lia).
    specialize (IH WAIT). cbn [owed] in IH. lia.
  - specialize (IH REPORT_OVERRUN). cbn [owed] in IH. lia.
  - specialize (IH IDLE). cbn [owed] in IH. lia.
  - specialize (IH IDLE). cbn [owed] in IH. lia.
  - rewrite count_occ_cons_eq by reflexivity.
    specialize (IH IDLE). cbn [owed] in IH. lia.
  - specialize (IH REPORT_OVERRUN). cbn [owed] in IH. lia.
  - rewrite count_occ_cons_eq by reflexivity.
    specialize (IH IDLE). cbn [owed] in IH. lia.
  - specialize (IH REPORT_OVERRUN). cbn [owed] in IH. lia.
  - specialize (IH IDLE). cbn [owed] in IH. lia.
  - specialize (IH IDLE). cbn [owed] in IH. lia.
  - specialize (IH IDLE). cbn [owed] in IH. lia.
  - specialize (IH IDLE). cbn [owed] in IH. lia.
Qed.

End StreamerRateFacts.

(** X1. Whatever the inputs, a streamer that starts in [IDLE] writes at
    most one byte in two cycles, rounded up: twice the number of bytes
    written is at most the number of cycles plus one. *)
Theorem streamer_writes_at_most_every_other_cycle
    (width : Z) (ins : list FIFOStreamer.inputs) :
  (2 * List.length
         (FIFOStreamer.writes (FIFOStreamer.run width FIFOStreamer.IDLE ins))
   <= List.length ins + 1)%nat.
Proof. apply (write_rate_from width FIFOStreamer.IDLE ins). Qed.

(** X2. While an overrun report is pending the streamer looks at [w_rdy]
    only. Two runs from [REPORT_OVERRUN] that wait equally long for room
    drive the same port values, whatever strobes and data come in the
    cycles of the wait and in the cycle in which the sentinel is written:
    the samples of all those strobes are lost behind the one sentinel. *)
Theorem pending_overrun_ignores_strobes
    (width : Z) (stall stall' rest : list FIFOStreamer.inputs)
    (c c' : FIFOStreamer.inputs) :
  List.length stall = List.length stall' ->
  Forall (fun i => FIFOStreamer.w_rdy i = false) stall ->
  Forall (fun i => FIFOStreamer.w_rdy i = false) stall' ->
  FIFOStreamer.w_rdy c = true ->
  FIFOStreamer.w_rdy c' = true ->
  FIFOStreamer.run width FIFOStreamer.REPORT_OVERRUN (stall ++ c :: rest)
  = FIFOStreamer.run width FIFOStreamer.REPORT_OVERRUN (stall' ++ c' :: rest)
  /\ FIFOStreamer.writes
       (FIFOStreamer.run width FIFOStreamer.REPORT_OVERRUN (stall ++ c :: rest))
     = FIFOStreamer.sentinel
       :: FIFOStreamer.writes (FIFOStreamer.run width FIFOStreamer.IDLE rest).
Proof.
  intros Hlen Hs Hs' Hc Hc'.
  destruct (stalled_in_report_overrun width stall Hs) as [Hrun Hfin].
  destruct (stalled_in_report_overrun width stall' Hs') as [Hrun' Hfin'].
  rewrite !run_app, Hrun, Hrun', Hfin, Hfin'. cbn [FIFOStreamer.run].
  cbn [FIFOStreamer.step]. rewrite Hc, Hc'.
  split.
  - f_equal. now apply run_constant_length.
  - rewrite writes_app, writes_no_write. reflexivity.
Qed.

Lemma pending_overrun_ignores_strobes_witness :
  let cyc s d r := {| FIFOStreamer.strobe := s; FIFOStreamer.data := d;
                      FIFOStreamer.w_rdy := r |} in
  FIFOStreamer.run 6 FIFOStreamer.REPORT_OVERRUN
    ([cyc true 1 false; cyc true 2 false] ++ cyc true 3 true :: [cyc true 4 true])
  = FIFOStreamer.run 6 FIFOStreamer.REPORT_OVERRUN
      ([cyc false 0 false; cyc false 0 false]
       ++ cyc false 0 true :: [cyc true 4 true]).
Proof.
  intros cyc.
  assert (Hs : Forall (fun i => FIFOStreamer.w_rdy i = false)
                      [cyc true 1 false; cyc true 2 false])
    by (repeat constructor).
  assert (Hs' : Forall (fun i => FIFOStreamer.w_rdy i = false)
                       [cyc false 0 false; cyc false 0 false])
    by (repeat constructor).
  exact (proj1
    (pending_overrun_ignores_strobes 6
       [cyc true 1 false; cyc true 2 false]
       [cyc false 0 false; cyc false 0 false] [cyc true 4 true]
       (cyc true 3 true) (cyc false 0 true) eq_refl Hs Hs' eq_refl eq_refl)).
Defined.

(** X3. For a streamer of a width the constructor accepts and any input
    sequence, the stream holds at most one sentinel for each strobe that
    met a full queue: no sentinel is written without an overrun. *)
Theorem sentinels_bounded_by_overruns
    (width : Z) (ins : list FIFOStreamer.inputs) :
  FIFOStreamer.init width = Some width ->
  (count_sentinels
     (FIFOStreamer.writes (FIFOStreamer.run width FIFOStreamer.IDLE ins))
   <= count_full_strobes ins)%nat.
Proof.
  intros Hinit. apply init_range in Hinit.
  pose proof (sentinels_from width Hinit FIFOStreamer.IDLE ins) as H.
  cbn [owed] in H. lia.
Qed.

Lemma sentinels_bounded_by_overruns_witness :
  let cyc s d r := {| FIFOStreamer.strobe := s; FIFOStreamer.data := d;
                      FIFOStreamer.w_rdy := r |} in
  let ins := [cyc true 1 false; cyc true 2 false; cyc false 0 true;
              cyc true 3 true] in
  (count_sentinels
     (FIFOStreamer.writes (FIFOStreamer.run 6 FIFOStreamer.IDLE ins))
   <= count_full_strobes ins)%nat.
Proof.
  intros cyc ins.
  exact (sentinels_bounded_by_overruns 6 ins eq_refl).
Defined.

(** ** PDMCaptureSubtarget *)

Section SubtargetStreamFacts.

Import PDMCaptureSubtarget.

Lemma final_snoc d pre x : forall s,
  final d s (pre ++ [x]) = fst (step d (final d s pre) x).
Proof.
  induction pre as [| i pre IH]; intros s; cbn; [reflexivity | apply IH].
Qed.

Lemma run_snoc d pre x : forall s,
  run d s (pre ++ [x]) = run d s pre ++ [snd (step d (final d s pre) x)].
Proof.
  induction pre as [| i pre IH]; intros s; cbn.
  - now destruct (step d s x).
  - rewrite (surjective_pairing (step d s i)). cbn. now rewrite IH.
Qed.

Lemma step_streamer d s x :
  streamer (fst (step d s x))
  = fst (FIFOStreamer.step (streamer_width d) (streamer s) (streamer_inputs s x))
  /\ snd (step d s x)
     = snd (FIFOStreamer.step (streamer_width d) (streamer s)
              (streamer_inputs s x)).
Proof.
  unfold step. now destruct (FIFOStreamer.step _ _ _).
Qed.

(** Every port value of the circuit for 3 channels holds a word of six
    bits or the sentinel. *)
Lemma port_byte_range s x :
  let port := snd (step design3 s x) in
  FIFOStreamer.w_en port = true ->
  0 <= FIFOStreamer.w_data port <= 63
  \/ FIFOStreamer.w_data port = FIFOStreamer.sentinel.
Proof.
  intros port. unfold port.
  rewrite (proj2 (step_streamer design3 s x)).
  cbn [streamer_width design3].
  destruct (streamer s); cbn [FIFOStreamer.step streamer_inputs
    FIFOStreamer.strobe FIFOStreamer.w_rdy FIFOStreamer.data].
  - destruct (stb_f x); [| discriminate].
    destruct (w_rdy x); [| discriminate].
    cbn [snd FIFOStreamer.w_data]. intros _. left.
    destruct (data_byte_range 6 (channels (sampler s)) ltac:(lia))
      as (_ & Hr & _).
    change (2 ^ 6) with 64 in Hr. lia.
  - destruct (w_rdy x); [| discriminate]. intros _. now right.
  - discriminate.
Qed.

Lemma queue_byte_range ins : forall s,
  Forall (fun b => 0 <= b <= 63 \/ b = FIFOStreamer.sentinel)
         (FIFOStreamer.writes (run design3 s ins)).
Proof.
  induction ins as [| i ins IH]; intros s; cbn; [constructor |].
  pose proof (port_byte_range s i) as Hport. cbn zeta in Hport.
  destruct (step design3 s i) as [s' o]. cbn [snd] in Hport. cbn.
  destruct (FIFOStreamer.w_en o); [constructor; auto |]; apply IH.
Qed.

Lemma previous_period_word_range pre : 0 <= previous_period_word pre < 64.
Proof.
  unfold previous_period_word.
  destruct (List.length (falls pre)); [lia | apply interleave_range].
Qed.

Lemma period_words_snoc pre x :
  (List.length (falls pre) <= List.length (rises pre))%nat ->
  period_words (pre ++ [x])
  = period_words pre
    ++ (if stb_f x then [previous_period_word pre] else []).
Proof.
  intros Hle. unfold period_words.
  assert (Hold : forall k, In k (seq 0 (List.length (falls pre))) ->
            match k with
            | O => 0
            | S j => interleave (nth j (rises (pre ++ [x])) 0)
                                (nth j (falls (pre ++ [x])) 0)
            end
            = match k with
              | O => 0
              | S j => interleave (nth j (rises pre) 0) (nth j (falls pre) 0)
              end).
  { intros k Hk. apply in_seq in Hk. destruct k as [| j]; [reflexivity |].
    rewrite rises_snoc, falls_snoc, !app_nth1 by lia. reflexivity. }
  rewrite (falls_snoc pre x) at 1.
  destruct (stb_f x) eqn:Ef.
  - rewrite length_app. cbn [List.length]. rewrite Nat.add_1_r, seq_S, map_app.
    rewrite (map_ext_in _ _ _ Hold). f_equal. cbn [map Nat.add].
    unfold previous_period_word.
    destruct (List.length (falls pre)) as [| j] eqn:El; [reflexivity |].
    rewrite rises_snoc, falls_snoc, !app_nth1 by lia. reflexivity.
  - rewrite !app_nil_r. now rewrite (map_ext_in _ _ _ Hold).
Qed.

Lemma sampler_tracks_lengths p r pre :
  sampler_tracks p r pre ->
  (List.length (falls pre) <= List.length (rises pre))%nat.
Proof. destruct p; cbn; intros H; lia. Qed.

Lemma stream_tracks_clock pre : forall p,
  phase_after true AfterFall pre = Some p ->
  room_at_falls pre = true ->
  streamer_tracks p (streamer (final design3 reset pre))
  /\ queue_bytes design3 pre = period_words pre.
Proof.
  induction pre as [| x pre IH] using rev_ind; intros p Hp Hroom.
  - cbn in Hp. injection Hp as <-. cbn. split; [now left | reflexivity].
  - rewrite phase_after_snoc in Hp.
    destruct (phase_after true AfterFall pre) as [q |] eqn:Eq; [| discriminate].
    unfold room_at_falls in Hroom. rewrite forallb_app in Hroom.
    apply andb_true_iff in Hroom as [Hroom Hx]. cbn in Hx.
    rewrite andb_true_r in Hx.
    destruct (IH q eq_refl Hroom) as [Hst Hbytes].
    pose proof (sampler_tracks_clock pre q Eq) as Hsam.
    rewrite <- final_sampler in Hsam.
    pose proof (sampler_tracks_lengths _ _ _ Hsam) as Hle.
    unfold queue_bytes in *. rewrite run_snoc, writes_app, Hbytes.
    rewrite (period_words_snoc pre x Hle), final_snoc.
    destruct (step_streamer design3 (final design3 reset pre) x) as [-> ->].
    set (s := final design3 reset pre) in *.
    cbn [streamer_width design3].
    destruct q; cbn in Hp, Hst, Hsam.
    + destruct (stb_f x) eqn:Ef; [discriminate |].
      destruct (stb_r x) eqn:Er; [discriminate |].
      injection Hp as <-.
      destruct Hst as [-> | ->];
        cbn [FIFOStreamer.step streamer_inputs FIFOStreamer.strobe];
        rewrite ?Ef; cbn; now split.
    + destruct (stb_f x) eqn:Ef; [discriminate |].
      rewrite Hst.
      cbn [FIFOStreamer.step streamer_inputs FIFOStreamer.strobe].
      rewrite Ef. cbn.
      destruct (stb_r x); injection Hp as <-; now split.
    + destruct (stb_r x) eqn:Er; [discriminate |].
      rewrite Hst.
      cbn [FIFOStreamer.step streamer_inputs FIFOStreamer.strobe
           FIFOStreamer.w_rdy FIFOStreamer.data].
      destruct (stb_f x) eqn:Ef; injection Hp as <-.
      * cbn in Hx. rewrite Hx. cbn [fst snd FIFOStreamer.writes
          FIFOStreamer.w_en FIFOStreamer.w_data streamer_tracks].
        split; [now right |]. do 2 f_equal.
        destruct Hsam as (_ & _ & Hch & _). rewrite Hch.
        pose proof (previous_period_word_range pre) as Hr.
        rewrite (trunc_small 6) by (change (2 ^ 6) with 64; lia).
        apply trunc_small. change (2 ^ 8) with 256. lia.
      * cbn. now split.
Qed.

End SubtargetStreamFacts.

(** X4. For every input sequence, every byte the subtarget for 3 channels
    writes to the queue is a sample word between 0 and 63 or the sentinel
    0xFF: the two upper bits of a data byte are never set. *)
Theorem queue_bytes_are_words_or_sentinel
    (ins : list PDMCaptureSubtarget.inputs) :
  Forall (fun b => 0 <= b <= 63 \/ b = FIFOStreamer.sentinel)
         (PDMCaptureSubtarget.queue_bytes design3 ins).
Proof. apply (queue_byte_range ins PDMCaptureSubtarget.reset). Qed.

(** X5. With strobes that alternate, never coincide and leave a free cycle
    after reset and after each falling strobe, and with room in the queue
    at every falling strobe, the byte stream of the subtarget has one byte
    for each falling strobe and no sentinel: the first byte is 0 and byte
    [k + 1] is the interleave of the pin values at rising strobe [k] and at
    falling strobe [k]. *)
Theorem byte_stream_is_the_period_words
    (ins : list PDMCaptureSubtarget.inputs) :
  well_clocked ins = true ->
  room_at_falls ins = true ->
  PDMCaptureSubtarget.queue_bytes design3 ins = period_words ins
  /\ List.length (PDMCaptureSubtarget.queue_bytes design3 ins)
     = List.length (falls ins)
  /\ (forall k, (k < List.length (falls ins))%nat ->
        nth k (PDMCaptureSubtarget.queue_bytes design3 ins) 0
        = match k with
          | O => 0
          | S j => interleave (nth j (rises ins) 0) (nth j (falls ins) 0)
          end).
Proof.
  intros Hclk Hroom. unfold well_clocked, clocked in Hclk.
  destruct (phase_after true AfterFall ins) as [p |] eqn:Ep; [| discriminate].
  destruct (stream_tracks_clock ins p Ep Hroom) as [_ Hbytes].
  split; [exact Hbytes |]. rewrite Hbytes. unfold period_words.
  split.
  - now rewrite length_map, length_seq.
  - intros k Hk.
    rewrite (nth_indep _ 0
               (match k with
                | O => 0
                | S j => interleave (nth j (rises ins) 0) (nth j (falls ins) 0)
                end))
      by (now rewrite length_map, length_seq).
    rewrite (map_nth (fun k => match k with
                               | O => 0
                               | S j => interleave (nth j (rises ins) 0)
                                                   (nth j (falls ins) 0)
                               end) (seq 0 (List.length (falls ins))) k k).
    now rewrite seq_nth.
Qed.

Lemma byte_stream_is_the_period_words_witness :
  let cyc r f p := {| PDMCaptureSubtarget.stb_r := r;
                      PDMCaptureSubtarget.stb_f := f;
                      PDMCaptureSubtarget.pins_i := p;
                      PDMCaptureSubtarget.w_rdy := f |} in
  let ins := [cyc false false 0; cyc true false 5; cyc false false 1;
              cyc false true 2; cyc false false 0; cyc true false 7;
              cyc false true 7; cyc false false 3; cyc true false 0;
              cyc false true 4] in
  PDMCaptureSubtarget.queue_bytes design3 ins = period_words ins.
Proof.
  intros cyc ins.
  exact (proj1 (byte_stream_is_the_period_words ins eq_refl eq_refl)).
Defined.

Section CounterFacts.

Import PDMCaptureSubtarget.

Lemma counter_tracks_falls pre : forall p,
  phase_after true AfterFall pre = Some p ->
  counter (sampler_final design3 (sampler reset) pre)
  = Z.of_nat (List.length (falls pre)) mod 64.
Proof.
  induction pre as [| x pre IH] using rev_ind; intros p Hp; [reflexivity |].
  rewrite phase_after_snoc in Hp.
  destruct (phase_after true AfterFall pre) as [q |] eqn:Eq; [| discriminate].
  specialize (IH q eq_refl).
  pose proof (sampler_tracks_clock pre q Eq) as Hsam.
  rewrite sampler_final_snoc, falls_snoc.
  set (r := sampler_final design3 (sampler reset) pre) in *.
  unfold sampler_step.
  destruct q; cbn in Hp, Hsam.
  - destruct Hsam as (-> & _).
    destruct (stb_f x); [discriminate |]. cbn. now rewrite app_nil_r.
  - destruct Hsam as (-> & _).
    destruct (stb_f x); [discriminate |]. rewrite app_nil_r.
    now destruct (stb_r x).
  - destruct Hsam as (-> & _).
    destruct (stb_f x); [| now rewrite app_nil_r].
    cbn [counter n design3]. rewrite length_app. cbn [List.length].
    rewrite trunc_mod by lia. change (2 ^ (3 * 2)) with 64.
    rewrite IH, Z.add_mod_idemp_l by lia. f_equal. lia.
Qed.

(** The registers and the port do not see the pins of a cycle without
    strobe. *)
Lemma step_same_samples d s a b :
  same_samples a b -> step d s a = step d s b.
Proof.
  intros (Hr & Hf & Hw & Hp). unfold step, streamer_inputs.
  rewrite <- Hf, <- Hw.
  destruct (FIFOStreamer.step _ _ _) as [st' port]. f_equal. f_equal.
  unfold sampler_step. rewrite <- Hr, <- Hf.
  destruct (fsm (sampler s)); [reflexivity | |].
  - destruct (stb_r a); [| reflexivity]. now rewrite Hp.
  - destruct (stb_f a); [| reflexivity].
    rewrite Hp; [reflexivity | apply orb_true_r].
Qed.

End CounterFacts.

(** X6. With strobes that alternate, never coincide and leave a free cycle
    after reset and after each falling strobe, the cycle counter holds the
    number of falling strobes so far, modulo 64: it advances once per
    bit-clock period and wraps to 0 after 63. *)
Theorem counter_counts_falling_strobes
    (ins : list PDMCaptureSubtarget.inputs) :
  well_clocked ins = true ->
  PDMCaptureSubtarget.counter
    (PDMCaptureSubtarget.sampler
       (PDMCaptureSubtarget.final design3 PDMCaptureSubtarget.reset ins))
  = Z.of_nat (List.length (falls ins)) mod 64.
Proof.
  intros Hclk. unfold well_clocked, clocked in Hclk.
  destruct (phase_after true AfterFall ins) as [p |] eqn:Ep; [| discriminate].
  rewrite final_sampler. exact (counter_tracks_falls ins p Ep).
Qed.

Lemma counter_counts_falling_strobes_witness :
  let cyc r f := {| PDMCaptureSubtarget.stb_r := r;
                    PDMCaptureSubtarget.stb_f := f;
                    PDMCaptureSubtarget.pins_i := 0;
                    PDMCaptureSubtarget.w_rdy := true |} in
  let period := [cyc false false; cyc true false; cyc false true] in
  let ins := List.concat (repeat period 65) in
  PDMCaptureSubtarget.counter
    (PDMCaptureSubtarget.sampler
       (PDMCaptureSubtarget.final design3 PDMCaptureSubtarget.reset ins))
  = Z.of_nat (List.length (falls ins)) mod 64.
Proof.
  intros cyc period ins.
  exact (counter_counts_falling_strobes ins eq_refl).
Defined.

(** X7. The subtarget looks at the pins only in a cycle with a strobe. Two
    input sequences with the same strobes and the same [w_rdy] in every
    cycle, and the same pin values in the cycles that have a strobe, drive
    the same port values in every cycle and write the same bytes, for every
    circuit: what the pins do between the edges never reaches the
    stream. *)
Theorem pins_matter_only_at_strobes
    (d : PDMCaptureSubtarget.design)
    (ins ins' : list PDMCaptureSubtarget.inputs) :
  Forall2 same_samples ins ins' ->
  PDMCaptureSubtarget.run d PDMCaptureSubtarget.reset ins
  = PDMCaptureSubtarget.run d PDMCaptureSubtarget.reset ins'
  /\ PDMCaptureSubtarget.queue_bytes d ins
     = PDMCaptureSubtarget.queue_bytes d ins'.
Proof.
  intros Hsame.
  assert (H : forall s, PDMCaptureSubtarget.run d s ins
                        = PDMCaptureSubtarget.run d s ins').
  { induction Hsame as [| a b ins ins' Hab _ IH]; intros s; cbn;
      [reflexivity |].
    rewrite (step_same_samples d s a b Hab).
    destruct (PDMCaptureSubtarget.step d s b) as [s' o]. now rewrite IH. }
  split; [apply H |].
  unfold PDMCaptureSubtarget.queue_bytes. now rewrite H.
Qed.

Lemma pins_matter_only_at_strobes_witness :
  let cyc r f p := {| PDMCaptureSubtarget.stb_r := r;
                      PDMCaptureSubtarget.stb_f := f;
                      PDMCaptureSubtarget.pins_i := p;
                      PDMCaptureSubtarget.w_rdy := true |} in
  PDMCaptureSubtarget.queue_bytes design3
    [cyc false false 7; cyc true false 5; cyc false false 3; cyc false true 2]
  = PDMCaptureSubtarget.queue_bytes design3
      [cyc false false 0; cyc true false 5; cyc false false 0; cyc false true 2].
Proof.
  intros cyc.
  assert (Hquiet : forall p q, same_samples (cyc false false p) (cyc false false q)).
  { intros p q. repeat split. discriminate. }
  assert (Hsame : forall r f p, same_samples (cyc r f p) (cyc r f p)).
  { intros r f p. repeat split. }
  exact (proj2 (pins_matter_only_at_strobes design3
    [cyc false false 7; cyc true false 5; cyc false false 3; cyc false true 2]
    [cyc false false 0; cyc true false 5; cyc false false 0; cyc false true 2]
    (Forall2_cons _ _ (Hquiet 7 0)
       (Forall2_cons _ _ (Hsame true false 5)
          (Forall2_cons _ _ (Hquiet 3 0)
             (Forall2_cons _ _ (Hsame false true 2) (Forall2_nil _))))))).
Defined.

(** X8. How [elaborate] fails by the channel count: with no channel, or
    with 4 or more, the streamer's constructor raises [AssertionError] for
    the width [2 * n]; with 1 or 2 channels the permutation of [REPORT]
    raises [IndexError], at index 3 of the 2 bits for one channel and at
    index 4 of the 4 bits for two; with 3 channels there is no error. *)
Theorem elaborate_errors (n : Z) :
  (PDMCaptureSubtarget.elaborate n = inl PDMCaptureSubtarget.AssertionError
   <-> n <= 0 \/ 4 <= n)
  /\ ((exists k w, PDMCaptureSubtarget.elaborate n
                   = inl (PDMCaptureSubtarget.IndexError k w))
      <-> 1 <= n <= 2)
  /\ (n = 1 -> PDMCaptureSubtarget.elaborate n
               = inl (PDMCaptureSubtarget.IndexError 3 2))
  /\ (n = 2 -> PDMCaptureSubtarget.elaborate n
               = inl (PDMCaptureSubtarget.IndexError 4 4)).
Proof.
  assert (Hout : n <= 0 \/ 4 <= n ->
            PDMCaptureSubtarget.elaborate n
            = inl PDMCaptureSubtarget.AssertionError).
  { intros Hn. unfold PDMCaptureSubtarget.elaborate, FIFOStreamer.init.
    destruct (Z.ltb_spec 0 (n * 2)), (Z.leb_spec (n * 2) 7);
      cbn; try reflexivity; lia. }
  assert (Hcases : n <= 0 \/ n = 1 \/ n = 2 \/ n = 3 \/ 4 <= n) by lia.
  split; [| split; [| split]].
  - split; [| exact Hout].
    destruct Hcases as [H | [-> | [-> | [-> | H]]]]; try (intros _; lia);
      cbv; discriminate.
  - split.
    + intros (k & w & E).
      destruct Hcases as [H | [-> | [-> | [-> | H]]]]; try lia;
        try (rewrite Hout in E by lia; discriminate).
      cbv in E. discriminate.
    + intros Hn. assert (Hc : n = 1 \/ n = 2) by lia.
      destruct Hc as [-> | ->]; [exists 3, 2 | exists 4, 4]; reflexivity.
  - intros ->. reflexivity.
  - intros ->. reflexivity.
Qed.

(** ** AudioPDMApplet.interact *)

Section HostFileFacts.

Import AudioPDMApplet.

Variable d : disk.
Variable threshold : Z.

Lemma loop_overrun_set transport st :
  overrun st = true -> loop d threshold transport st = (LoopEnd, st).
Proof. intros H. destruct transport; cbn; now rewrite H. Qed.

Lemma accepted_without_sentinel transport :
  Forall (fun b => b <> xff) (accepted transport).
Proof.
  induction transport as [| ev rest IH]; cbn; [constructor |].
  destruct ev as [data | e]; [| constructor].
  destruct (contains_0xff data) eqn:Ec; [constructor |].
  apply Forall_app. split; [| exact IH].
  unfold contains_0xff in Ec. rewrite Forall_forall. intros b Hb Heq.
  subst b.
  assert (Hex : existsb (Byte.eqb xff) data = true).
  { apply existsb_exists. exists xff. split; [exact Hb | reflexivity]. }
  congruence.
Qed.

(** What the file holds is a prefix of what was accepted, and as long as
    no exception left the loop, so is the file followed by the buffer. *)
Lemma loop_prefix transport : forall st,
  let r := loop d threshold transport st in
  let all := (contents (f st) ++ buffer st ++ accepted transport)%list in
  (exists suffix, (contents (f (snd r)) ++ suffix)%list = all)
  /\ (raised_of (fst r) = None ->
      exists suffix,
        (contents (f (snd r)) ++ buffer (snd r) ++ suffix)%list = all).
Proof.
  induction transport as [| ev rest IH]; intros st; cbn zeta.
  - cbn. destruct (overrun st); cbn; rewrite app_nil_r;
      (split; [now exists (buffer st) | intros _; exists []; now rewrite app_nil_r]).
  - destruct (overrun st) eqn:Hov.
    { rewrite loop_overrun_set by assumption. cbn [fst snd].
      split; [now eexists | intros _; now eexists]. }
    cbn [loop]. rewrite Hov.
    destruct ev as [data | e].
    + cbn [accepted].
      destruct (len data =? 0) eqn:El.
      { apply len_zero in El. subst data. cbn. apply IH. }
      destruct (contains_0xff data) eqn:Ec.
      { cbn. rewrite app_nil_r.
        split; [now exists (buffer st) |
                intros _; exists []; now rewrite app_nil_r]. }
      cbn [set_buffer set_total_read buffer f].
      destruct (threshold <? len (buffer st ++ data)).
      * unfold file_write. cbn [write_calls contents close_calls].
        destruct (d (write_calls (f st))) as [| partial msg].
        -- match goal with
           | |- context [loop d threshold rest ?s] =>
               destruct (IH s) as [H1 H2]
           end.
           cbn [set_buffer set_f f contents buffer] in H1, H2.
           rewrite <- !app_assoc in H1, H2. cbn [app] in H1, H2.
           split; assumption.
        -- cbn [fst snd raised_of set_f f contents].
           split; [| discriminate].
           exists (skipn partial (buffer st ++ data) ++ accepted rest)%list.
           rewrite <- !app_assoc.
           rewrite (app_assoc (firstn partial _)), firstn_skipn.
           now rewrite <- app_assoc.
      * match goal with
        | |- context [loop d threshold rest ?s] =>
            destruct (IH s) as [H1 H2]
        end.
        cbn [set_buffer set_total_read f contents buffer] in H1, H2.
        rewrite <- !app_assoc in H1, H2.
        split; assumption.
    + cbn. rewrite app_nil_r. split; [now exists (buffer st) | discriminate].
Qed.

(** [close] keeps a prefix of what the file object took, and the whole of
    it when it does not fail. *)
Lemma handlers_contents raised st :
  (exists k,
     contents (f (snd (handlers d raised st))) = firstn k (contents (f st)))
  /\ (on_close d = CloseOk ->
      contents (f (snd (handlers d raised st))) = contents (f st))
  /\ buffer (snd (handlers d raised st)) = buffer st.
Proof.
  unfold handlers, file_close.
  destruct raised as [e |]; [destruct (is_Exception e) |];
    destruct (on_close d) as [| lost msg]; cbn;
    (split; [| split; [intros H; try reflexivity; discriminate | reflexivity]]);
    first [ exists (List.length (contents (f st))); now rewrite firstn_all
          | now eexists ].
Qed.

Lemma prefix_firstn (k : nat) (c all : list byte) :
  (exists suffix, (c ++ suffix)%list = all) ->
  exists suffix, (firstn k c ++ suffix)%list = all.
Proof.
  intros [suffix H]. exists (skipn k c ++ suffix)%list.
  now rewrite app_assoc, firstn_skipn.
Qed.

Lemma interact_prefix transport :
  exists suffix,
    (contents (f (snd (interact_with threshold d transport))) ++ suffix)%list
    = accepted transport.
Proof.
  unfold interact_with.
  match goal with
  | |- context [loop d threshold transport ?s] =>
      destruct (loop_prefix transport s) as [H1 H2];
      destruct (loop d threshold transport s) as [ex st]
  end.
  cbn [fst snd f contents buffer open app] in H1, H2.
  destruct ex as [| e |].
  - destruct (H2 eq_refl) as [suffix Hs].
    unfold final_flush.
    destruct (0 <? len (buffer st)).
    + unfold file_write. destruct (d (write_calls (f st))) as [| partial msg];
        match goal with
        | |- context [handlers d ?r ?s] =>
            destruct (handlers_contents r s) as [[k ->] _]
        end;
        apply prefix_firstn; cbn.
      * exists suffix. now rewrite <- app_assoc.
      * exists (skipn partial (buffer st) ++ suffix)%list.
        rewrite <- app_assoc, (app_assoc (firstn partial _)), firstn_skipn.
        exact Hs.
    + destruct (handlers_contents None st) as [[k ->] _].
      apply prefix_firstn. exists (buffer st ++ suffix)%list. exact Hs.
  - destruct (handlers_contents (Some e) st) as [[k ->] _].
    apply prefix_firstn. exact H1.
  - exact H1.
Qed.

End HostFileFacts.

(** X9. Whatever the disk does, including writes that fail after a part
    of the buffer, and whatever the transport delivers, the file holds a
    prefix of the concatenation of the chunks accepted as data: bytes reach
    the file in the order they were read, none twice, none invented. *)
Theorem file_is_a_prefix_of_the_accepted_bytes
    (d : AudioPDMApplet.disk) (transport : list AudioPDMApplet.read_event) :
  exists suffix,
    (AudioPDMApplet.contents
       (AudioPDMApplet.f (snd (AudioPDMApplet.interact d transport)))
     ++ suffix)%list
    = AudioPDMApplet.accepted transport.
Proof. apply interact_prefix. Qed.

(** X10. Whatever the disk and the transport do, no byte 0xFF is ever
    written to the file. *)
Theorem file_never_holds_the_sentinel
    (d : AudioPDMApplet.disk) (transport : list AudioPDMApplet.read_event) :
  ~ In xff
       (AudioPDMApplet.contents
          (AudioPDMApplet.f (snd (AudioPDMApplet.interact d transport)))).
Proof.
  intros Hin.
  destruct (interact_prefix d AudioPDMApplet.flush_threshold transport)
    as [suffix Hs].
  pose proof (accepted_without_sentinel transport) as Hacc.
  rewrite <- Hs in Hacc. apply Forall_app in Hacc as [Hacc _].
  rewrite Forall_forall in Hacc. now apply (Hacc xff Hin).
Qed.

Section HostTransportFacts.

Import AudioPDMApplet.

Variable d : disk.
Variable threshold : Z.

Lemma loop_skips_empty_chunk before after : forall st,
  loop d threshold (before ++ Chunk [] :: after) st
  = loop d threshold (before ++ after) st.
Proof.
  induction before as [| ev before IH]; intros st.
  - cbn [app]. destruct (overrun st) eqn:Hov.
    + now rewrite !(loop_overrun_set d threshold _ st Hov).
    + cbn [loop]. rewrite Hov. reflexivity.
  - cbn [app loop]. destruct (overrun st); [reflexivity |].
    destruct ev as [data | e]; [| reflexivity].
    destruct (len data =? 0); [apply IH |].
    destruct (contains_0xff data); [reflexivity |].
    destruct (threshold <? len (buffer _)).
    + destruct (file_write d _ _) as [f' [e |]]; [reflexivity | apply IH].
    + apply IH.
Qed.

Lemma loop_done_is_final transport more : forall st,
  fst (loop d threshold transport st) <> LoopAwait ->
  loop d threshold (transport ++ more) st = loop d threshold transport st.
Proof.
  induction transport as [| ev rest IH]; intros st Hdone.
  - cbn [app]. destruct (overrun st) eqn:Hov.
    + now rewrite !(loop_overrun_set d threshold _ st Hov).
    + cbn in Hdone. rewrite Hov in Hdone. now contradiction Hdone.
  - cbn [app loop] in *. destruct (overrun st); [reflexivity |].
    destruct ev as [data | e]; [| reflexivity].
    destruct (len data =? 0); [now apply IH |].
    destruct (contains_0xff data); [reflexivity |].
    destruct (threshold <? len (buffer _)).
    + destruct (file_write d _ _) as [f' [e |]]; [reflexivity | now apply IH].
    + now apply IH.
Qed.

Lemma handlers_not_suspended raised st :
  fst (handlers d raised st) <> Suspended.
Proof.
  unfold handlers, file_close.
  destruct raised as [e |]; [destruct (is_Exception e) |];
    destruct (on_close d); discriminate.
Qed.

Lemma interact_suspended_iff transport :
  fst (interact_with threshold d transport) = Suspended
  <-> fst (loop d threshold transport
             {| f := open; log := [(INFO, "starting capture"%string)];
                total_read := 0; overrun := false; buffer := [] |})
      = LoopAwait.
Proof.
  unfold interact_with.
  destruct (loop d threshold transport _) as [[| e |] st]; cbn [fst].
  - destruct (final_flush d st) as [raised st'].
    split; [intros H; now apply handlers_not_suspended in H | discriminate].
  - split; [intros H; now apply handlers_not_suspended in H | discriminate].
  - now split.
Qed.

Lemma loop_await_clean transport : forall st,
  fst (loop d threshold transport st) = LoopAwait -> clean transport = true.
Proof.
  induction transport as [| ev rest IH]; intros st H; [reflexivity |].
  cbn [loop] in H. destruct (overrun st); [discriminate |].
  destruct ev as [data | e]; [| discriminate]. cbn [clean forallb].
  destruct (len data =? 0) eqn:El.
  - apply len_zero in El. subst data. cbn. now apply (IH st).
  - destruct (contains_0xff data); [discriminate |]. cbn.
    destruct (threshold <? len (buffer _)).
    + destruct (file_write d _ _) as [f' [e |]]; [discriminate |].
      now apply (IH _ H).
    + now apply (IH _ H).
Qed.

End HostTransportFacts.


(** X11. An empty chunk is a no-op wherever it comes: for every disk, a
    transport with an empty chunk put in at any place gives the same
    outcome, the same file, the same log and the same local variables as
    the transport without it. *)
Theorem empty_chunk_changes_nothing
    (d : AudioPDMApplet.disk)
    (before after : list AudioPDMApplet.read_event) :
  AudioPDMApplet.interact d (before ++ AudioPDMApplet.Chunk [] :: after)
  = AudioPDMApplet.interact d (before ++ after).
Proof.
  unfold AudioPDMApplet.interact, AudioPDMApplet.interact_with.
  now rewrite loop_skips_empty_chunk.
Qed.

(** X12. A call of [interact] that has returned or raised reads no more:
    for every disk, if the outcome on a transport is not [Suspended], the
    outcome and the final state are the same whatever further events the
    transport would deliver. *)
Theorem finished_run_reads_no_more
    (d : AudioPDMApplet.disk)
    (transport more : list AudioPDMApplet.read_event) :
  fst (AudioPDMApplet.interact d transport) <> AudioPDMApplet.Suspended ->
  AudioPDMApplet.interact d (transport ++ more)
  = AudioPDMApplet.interact d transport.
Proof.
  intros Hdone. unfold AudioPDMApplet.interact in *.
  assert (Hloop : fst (AudioPDMApplet.loop d AudioPDMApplet.flush_threshold
                         transport
                         {| AudioPDMApplet.f := AudioPDMApplet.open;
                            AudioPDMApplet.log :=
                              [(AudioPDMApplet.INFO, "starting capture"%string)];
                            AudioPDMApplet.total_read := 0;
                            AudioPDMApplet.overrun := false;
                            AudioPDMApplet.buffer := [] |})
                  <> AudioPDMApplet.LoopAwait).
  { intros H. apply Hdone.
    exact (proj2 (interact_suspended_iff d _ transport) H). }
  unfold AudioPDMApplet.interact_with.
  now rewrite (loop_done_is_final d _ transport more _ Hloop).
Qed.

Lemma finished_run_reads_no_more_witness :
  AudioPDMApplet.interact AudioPDMApplet.healthy
    (example_transport ++ [AudioPDMApplet.Chunk [x06; x07]])
  = AudioPDMApplet.interact AudioPDMApplet.healthy example_transport.
Proof.
  apply (finished_run_reads_no_more AudioPDMApplet.healthy example_transport
           [AudioPDMApplet.Chunk [x06; x07]]).
  vm_compute. discriminate.
Defined.

(** X13. The loop has no exit at the end of the stream. For every disk,
    a call that is still suspended in a read has only read chunks without
    the sentinel; and with every write succeeding, a transport that only
    delivers such chunks, however many and even if all are empty, leaves
    the call suspended in the next read with the file not closed: only a
    chunk with the sentinel or an exception ends [interact]. *)
Theorem only_sentinel_or_exception_ends_interact
    (d : AudioPDMApplet.disk) (transport : list AudioPDMApplet.read_event) :
  (fst (AudioPDMApplet.interact d transport) = AudioPDMApplet.Suspended ->
   clean transport = true)
  /\ (clean transport = true ->
      let r := AudioPDMApplet.interact AudioPDMApplet.healthy transport in
      fst r = AudioPDMApplet.Suspended
      /\ AudioPDMApplet.close_calls (AudioPDMApplet.f (snd r)) = 0%nat).
Proof.
  split.
  - intros H. apply (proj1 (interact_suspended_iff d _ transport)) in H.
    now apply loop_await_clean in H.
  - intros Hclean r. unfold r, AudioPDMApplet.interact,
      AudioPDMApplet.interact_with.
    match goal with
    | |- context [AudioPDMApplet.loop _ ?t transport ?s] =>
        pose proof (loop_healthy t transport s eq_refl) as H; cbn zeta in H;
        destruct (AudioPDMApplet.loop AudioPDMApplet.healthy t transport s)
          as [ex st]
    end.
    cbn [fst snd] in H. destruct H as (Hex & _ & Hcl & _).
    rewrite (proj2 (loop_exit_of_clean transport) Hclean) in Hex. subst ex.
    split; [reflexivity | exact Hcl].
Qed.

Lemma only_sentinel_or_exception_ends_interact_witness :
  let transport := [AudioPDMApplet.Chunk [x01]; AudioPDMApplet.Chunk [];
                    AudioPDMApplet.Chunk [x02; x03]] in
  fst (AudioPDMApplet.interact AudioPDMApplet.healthy transport)
  = AudioPDMApplet.Suspended.
Proof.
  intros transport.
  exact (proj1 (proj2 (only_sentinel_or_exception_ends_interact
                         AudioPDMApplet.healthy transport) eq_refl)).
Defined.

